(** * Lens traversal of [BaseEntity.load]

    A shallow embedding of the [load] method of joist-ts's [BaseEntity]:

    - the path recorder: the [Proxy] whose [get] trap pushes
      [String(property)] on [paths] and hands back the receiver;
    - the graph walker: the [for await] loop that replays [paths] over the
      entity graph, with its [Array.isArray] branch
      ([Promise.all], [flat], [new Set]) and its single-entity branch.

    [Reference] and [Collection] are imported by the source and not part of
    it; what they answer to [.load()] is a parameter of the model
    (the [graph]).

    Beside [load]: the state getters, [toString] and [toJSON] of
    [BaseEntity], and the [get] of [Publisher]'s [allImages]. *)

From Stdlib Require Import List String Arith Bool Lia ZArith Permutation Sorted.
Import ListNotations.
Open Scope string_scope.
Open Scope list_scope.

Set Implicit Arguments.

(** ** Values of the program *)

(** What a rejected promise carries, or what a [throw] raises.  [TypeError]
    is what the engine raises for [undefined[path]] and for calling
    [.load] on something that has none. *)
Inductive error : Type :=
| TypeError
| Thrown (reason : string).

(** Entities are objects, compared by reference: a [node] is the handle. *)
Definition node := nat.

(** A member of an array, or what a [Reference] resolves to: an entity or
    [undefined]. *)
Inductive elem : Type :=
| Undefined
| Entity (n : node).

(** The values [current] takes: one element, or an array of them
    ([Array.isArray(current)]). *)
Inductive value : Type :=
| Single (e : elem)
| Array (l : list elem).

Definition elem_eq_dec (x y : elem) : {x = y} + {x <> y}.
Proof. decide equality. apply Nat.eq_dec. Defined.

Arguments elem_eq_dec : simpl never.

Definition elem_eqb (x y : elem) : bool :=
  if elem_eq_dec x y then true else false.

(** ** The path recorder *)

Module Recorder.

(** A property key reaching the [get] trap: a string or a symbol (with
    its description, if any). *)
Inductive key : Type :=
| KString (s : string)
| KSymbol (description : option string).

(** [String(property)]. *)
Definition String_ (property : key) : string :=
  match property with
  | KString s => s
  | KSymbol None => "Symbol()"
  | KSymbol (Some d) => "Symbol(" ++ d ++ ")"
  end.

(** The one object the traversal function is handed: the proxy.  Every
    intercepted access returns [receiver], that is the proxy again. *)
Inductive probe : Type :=
| TheProxy.

(** A traversal function [fn], as far as the recorder can observe it:
    the property reads it performs on a probe it holds, each continuing
    with the value the read produced, until it returns some [R] or
    throws. *)
Inductive body (R : Type) : Type :=
| Return (r : R)
| Get (receiver : probe) (property : key) (k : probe -> body R)
| Throw (e : error).

Arguments Return {R} r.
Arguments Get {R} receiver property k.
Arguments Throw {R} e.

Definition fn_type (R : Type) : Type := probe -> body R.

(** The trap: [get(object, property, receiver) { paths.push(String(property));
    return receiver; }]. *)
Definition get (paths : list string) (property : key) (receiver : probe)
  : list string * probe :=
  (paths ++ [String_ property], receiver).

(** Running the body of [fn] against the trap. *)
Fixpoint run {R : Type} (b : body R) (paths : list string)
  : list string * (R + error) :=
  match b with
  | Return r => (paths, inl r)
  | Throw e => (paths, inr e)
  | Get receiver property k =>
      let '(paths', v) := get paths property receiver in
      run (k v) paths'
  end.

(** [const paths = []; const proxy = new Proxy(...); fn(proxy);] *)
Definition record {R : Type} (fn : fn_type R) : list string * (R + error) :=
  run (fn TheProxy) [].

(** The pure chain of property accesses [lens[k1][k2]...[kn]], each read
    made on the value the one before produced, in a function that then
    returns [r] (the last value read, as in [b => b.author.publisher], or
    anything else). *)
Fixpoint chain_then {R : Type} (ks : list key) (r : R) (p : probe) : body R :=
  match ks with
  | [] => Return r
  | k :: ks' => Get p k (chain_then ks' r)
  end.

(** [lens => { lens[a]; return lens[b]; }]: two reads of the same probe,
    the first one dropped.  Not a chain. *)
Definition two_reads (a b : key) : fn_type probe :=
  fun lens => Get lens a (fun _ => Get lens b (fun r => Return r)).

(** What a body reads when every read hands back its receiver, and how
    it ends: the two things the trap lets it do. *)
Fixpoint reads {R : Type} (b : body R) : list key :=
  match b with
  | Return _ => []
  | Throw _ => []
  | Get receiver property k => property :: reads (k receiver)
  end.

Fixpoint completion {R : Type} (b : body R) : R + error :=
  match b with
  | Return r => inl r
  | Throw e => inr e
  | Get receiver _ k => completion (k receiver)
  end.

End Recorder.

(** ** The graph walker *)

Module Walker.

Definition hop := string.

(** How a promise ends. *)
Inductive settled : Type :=
| Fulfilled (v : value)
| Rejected (e : error).

(** The promise a [.load()] returns: how it ends, and when (the tick of
    the event loop at which it settles; [Promise.all] rejects with the
    rejection that comes first). *)
Record promise : Type := mkPromise {
  settles_at : nat;
  result : settled;
}.

(** What the expression [c[path].load()] comes to on an entity [c]:
    - [Loads p]: the call returns the promise [p] (a [load] that returns
      a plain value is a promise fulfilled with it);
    - [Missing]: [c[path]] is [undefined] or has no [load] to call, the
      engine throws [TypeError];
    - [Raises e]: reading [c[path]] throws [e] (a getter such as
      [idOrFail] on an entity without id), or the call of [load] itself
      throws [e] before it returns. *)
Inductive access : Type :=
| Loads (p : promise)
| Missing
| Raises (e : error).

(** The entity graph as the walker sees it: [graph c path] is what
    [c[path].load()] comes to. *)
Definition graph := node -> hop -> access.

(** One issued [.load()]: on which entity, for which property. *)
Definition call := (node * hop)%type.

Inductive outcome (A : Type) : Type :=
| Ok (a : A)
| Fail (e : error).

Arguments Ok {A} a.
Arguments Fail {A} e.

(** Code that issues loads and may throw: the calls issued so far are
    threaded through. *)
Definition M (A : Type) : Type := list call -> list call * outcome A.

Definition ret {A : Type} (a : A) : M A := fun log => (log, Ok a).

Definition throw {A : Type} (e : error) : M A := fun log => (log, Fail e).

Definition bind {A B : Type} (m : M A) (k : A -> M B) : M B :=
  fun log =>
    match m log with
    | (log', Ok a) => k a log'
    | (log', Fail e) => (log', Fail e)
    end.

Notation "x <- m ;; k" := (bind m (fun x => k))
  (at level 61, m at next level, right associativity).

(** [c[path].load()]: throws [TypeError] on [undefined] and on a
    property with no [load], throws what the property read or the call
    throws; otherwise the load is issued and its promise returned. *)
Definition member_load (g : graph) (path : hop) (c : elem) : M promise :=
  match c with
  | Undefined => throw TypeError
  | Entity n =>
      match g n path with
      | Missing => throw TypeError
      | Raises e => throw e
      | Loads p => fun log => (log ++ [(n, path)], Ok p)
      end
  end.

(** [current.map((c) => c[path].load())]: members in order; a throw in
    the callback ends the map. *)
Fixpoint map_load (g : graph) (path : hop) (current : list elem)
  : M (list promise) :=
  match current with
  | [] => ret []
  | c :: rest =>
      p <- member_load g path c ;;
      ps <- map_load g path rest ;;
      ret (p :: ps)
  end.

(** The rejection that settles first among [ps], with its tick; of two
    at the same tick the one earlier in the array. *)
Fixpoint first_rejected (ps : list promise) : option (nat * error) :=
  match ps with
  | [] => None
  | p :: ps' =>
      match result p, first_rejected ps' with
      | Fulfilled _, r => r
      | Rejected e, None => Some (settles_at p, e)
      | Rejected e, Some (t, e') =>
          if Nat.ltb t (settles_at p) then Some (t, e') else Some (settles_at p, e)
      end
  end.

(** The values of fulfilled promises, in array order. *)
Fixpoint fulfilled_values (ps : list promise) : list value :=
  match ps with
  | [] => []
  | p :: ps' =>
      match result p with
      | Fulfilled v => v :: fulfilled_values ps'
      | Rejected _ => fulfilled_values ps'
      end
  end.

(** [await p]. *)
Definition await (p : promise) : M value :=
  match result p with
  | Fulfilled v => ret v
  | Rejected e => throw e
  end.

(** [await Promise.all(ps)]. *)
Definition await_all (ps : list promise) : M (list value) :=
  match first_rejected ps with
  | Some (_, e) => throw e
  | None => ret (fulfilled_values ps)
  end.

(** [Array.prototype.flat()], one level. *)
Fixpoint flat (vs : list value) : list elem :=
  match vs with
  | [] => []
  | Single e :: vs' => e :: flat vs'
  | Array l :: vs' => l ++ flat vs'
  end.

(** A [Set], as its members in insertion order. *)
Definition Set_has (s : list elem) (x : elem) : bool :=
  existsb (elem_eqb x) s.

(** [x] is not yet in the set. *)
Definition fresh (s : list elem) (x : elem) : bool := negb (Set_has s x).

Definition Set_add (s : list elem) (x : elem) : list elem :=
  if Set_has s x then s else s ++ [x].

(** [new Set(iterable)]. *)
Definition new_Set (l : list elem) : list elem :=
  fold_left Set_add l [].

(** [[...set]]. *)
Definition spread (s : list elem) : list elem := s.

(** One turn of the loop body. *)
Definition step (g : graph) (current : value) (path : hop) : M value :=
  match current with
  | Array l =>
      ps <- map_load g path l ;;
      vs <- await_all ps ;;
      ret (Array (spread (new_Set (flat vs))))
  | Single c =>
      p <- member_load g path c ;;
      await p
  end.

(** [for await (const path of paths) { ... } return current]. *)
Fixpoint walk (g : graph) (current : value) (paths : list hop) : M value :=
  match paths with
  | [] => ret current
  | path :: rest =>
      next <- step g current path ;;
      walk g next rest
  end.

(** [BaseEntity.load]: record the path, then walk it from [this].  A
    [fn] that throws rejects the call before the loop is entered. *)
Definition load {R : Type} (g : graph) (this : node) (fn : Recorder.fn_type R)
  : M value :=
  match Recorder.record fn with
  | (paths, inl _) => walk g (Single (Entity this)) paths
  | (_, inr e) => throw e
  end.

(** Running from an empty log. *)
Definition run {A : Type} (m : M A) : list call * outcome A := m [].

(** *** Vocabulary of the statements *)

(** The members of a frontier. *)
Definition members (v : value) : list elem :=
  match v with
  | Single c => [c]
  | Array l => l
  end.

(** [c[path].load()] ends in error [e]: thrown on the spot, or through
    the rejection of the promise. *)
Definition resolution_fails (g : graph) (path : hop) (c : elem) (e : error)
  : Prop :=
  match c with
  | Undefined => e = TypeError
  | Entity n =>
      match g n path with
      | Missing => e = TypeError
      | Raises e' => e = e'
      | Loads p => result p = Rejected e
      end
  end.

(** [c[path].load()] throws [e] on the spot, while the batch is being
    issued: no promise comes of it. *)
Definition throws_at_once (g : graph) (path : hop) (c : elem) (e : error)
  : Prop :=
  match c with
  | Undefined => e = TypeError
  | Entity n =>
      match g n path with
      | Missing => e = TypeError
      | Raises e' => e = e'
      | Loads _ => False
      end
  end.

(** The load of [path] on [c] is issued and its promise is rejected with
    [e], at tick [t]. *)
Definition rejected_at (g : graph) (path : hop) (c : elem) (t : nat)
           (e : error) : Prop :=
  match c with
  | Undefined => False
  | Entity n =>
      match g n path with
      | Loads p => result p = Rejected e /\ settles_at p = t
      | _ => False
      end
  end.

(** A call of the batch of [path] over [current]: a load of [path] on
    an entity that is a member. *)
Definition in_batch (current : value) (path : hop) (c : call) : Prop :=
  snd c = path /\ In (Entity (fst c)) (members current).

(** [c[path].load()] is fulfilled with [v]. *)
Definition resolves_to (g : graph) (path : hop) (c : elem) (v : value)
  : Prop :=
  match c with
  | Undefined => False
  | Entity n =>
      match g n path with
      | Loads p => result p = Fulfilled v
      | _ => False
      end
  end.

(** Specification of de-duplication, after the words "by reference
    identity, preserving first-seen order": the head stays, later
    copies of it go. *)
Fixpoint dedup_first_seen (l : list elem) : list elem :=
  match l with
  | [] => []
  | x :: l' => x :: remove elem_eq_dec x (dedup_first_seen l')
  end.

(** Specification of singular chaining: the edges of [hops] resolved one
    after the other, each on the entity the one before produced. *)
Definition resolve_singular (g : graph) (c : elem) (h : hop) : option elem :=
  match c with
  | Undefined => None
  | Entity n =>
      match g n h with
      | Loads p =>
          match result p with
          | Fulfilled (Single c') => Some c'
          | _ => None
          end
      | _ => None
      end
  end.

Fixpoint resolve_chain (g : graph) (c : elem) (hops : list hop)
  : option elem :=
  match hops with
  | [] => Some c
  | h :: hops' =>
      match resolve_singular g c h with
      | Some c' => resolve_chain g c' hops'
      | None => None
      end
  end.

(** The loads a complete [map] over [current] issues: one per entity, in
    array order. *)
Definition batch_calls (path : hop) (current : list elem) : list call :=
  flat_map (fun c => match c with
                     | Entity n => [(n, path)]
                     | Undefined => []
                     end) current.

(** [c[path]] has a [load] to call. *)
Definition loadable (g : graph) (path : hop) (c : elem) : Prop :=
  exists n p, c = Entity n /\ g n path = Loads p.

(** [x] is reached from [c] along [hops]: edge after edge, through one
    member of what each edge resolves to. *)
Fixpoint reach (g : graph) (c : elem) (hops : list hop) (x : elem) : Prop :=
  match hops with
  | [] => x = c
  | h :: hops' =>
      exists v c', resolves_to g h c v /\ In c' (members v) /\
                   reach g c' hops' x
  end.

(** Two graphs that differ at most in when their loads settle. *)
Definition same_results (g g' : graph) : Prop :=
  forall (n : node) (h : hop),
    match g n h, g' n h with
    | Loads p, Loads p' => result p = result p'
    | Missing, Missing => True
    | Raises e, Raises e' => e = e'
    | _, _ => False
    end.

(** Two runs that issued the same loads and ended alike: on the same
    value, or both in failure. *)
Definition same_outcome (r r' : list call * outcome value) : Prop :=
  fst r = fst r' /\
  match snd r, snd r' with
  | Ok v, Ok v' => v = v'
  | Fail _, Fail _ => True
  | _, _ => False
  end.

End Walker.

(** ** Sample graphs

    Small entity graphs in the shape of the integration entities
    (publishers, authors, books, images), as edge tables. *)

Module Fixtures.
Import Walker.

(** The graph of an edge table: the first row for the entity and the
    property decides. *)
Definition graph_of (edges : list (node * hop * promise)) : graph :=
  fun n h =>
    match
      find (fun row => Nat.eqb n (fst (fst row)) && String.eqb h (snd (fst row)))
           edges
    with
    | Some row => Loads (snd row)
    | None => Missing
    end.

(** [g] with a getter [h] on entity [n] that throws [e] when read. *)
Definition with_getter (g : graph) (n : node) (h : hop) (e : error) : graph :=
  fun n' h' =>
    if Nat.eqb n' n && String.eqb h' h then Raises e else g n' h'.

Definition one (n : node) : promise := mkPromise 1 (Fulfilled (Single (Entity n))).
Definition none_set : promise := mkPromise 1 (Fulfilled (Single Undefined)).
Definition many (ns : list node) : promise :=
  mkPromise 1 (Fulfilled (Array (map Entity ns))).
Definition rejects (t : nat) (reason : string) : promise :=
  mkPromise t (Rejected (Thrown reason)).

(** Publisher 0 has authors 1 and 2; their images are 3 and 4. *)
Definition g_images : graph :=
  graph_of [ (0, "authors", many [1; 2]);
             (1, "image", one 3);
             (2, "image", one 4) ].

(** Publisher 0 has authors 1 and 2; both have publisher 0; book 10 is
    by author 1. *)
Definition g_publisher : graph :=
  graph_of [ (0, "authors", many [1; 2]);
             (1, "publisher", one 0);
             (2, "publisher", one 0);
             (10, "author", one 1) ].

(** As [g_images], but author 2 has no image. *)
Definition g_no_image : graph :=
  graph_of [ (0, "authors", many [1; 2]);
             (1, "image", one 3);
             (2, "image", none_set) ].

(** A collection that answers the same author twice. *)
Definition g_twice : graph :=
  graph_of [ (0, "authors", many [1; 1]) ].

(** As [g_images], but the load of author 2's image is rejected. *)
Definition g_rejected : graph :=
  graph_of [ (0, "authors", many [1; 2]);
             (1, "image", one 3);
             (2, "image", rejects 1 "fetch failed");
             (3, "author", one 1) ].

(** As [g_images], but both image loads are rejected, that of author 2
    first. *)
Definition g_two_rejections : graph :=
  graph_of [ (0, "authors", many [1; 2]);
             (1, "image", rejects 2 "timeout");
             (2, "image", rejects 1 "connection lost") ].

(** As [g_two_rejections], the rejections settling in the other
    order. *)
Definition g_two_rejections_swapped : graph :=
  graph_of [ (0, "authors", many [1; 2]);
             (1, "image", rejects 1 "timeout");
             (2, "image", rejects 2 "connection lost") ].

(** As [g_images], author 1 not yet saved: reading its [idOrFail]
    throws. *)
Definition g_new_author : graph :=
  with_getter g_images 1 "idOrFail" (Thrown "Entity has no id yet").

(** As [g_rejected], but reading [image] on author 1 throws. *)
Definition g_throwing_read : graph :=
  with_getter g_rejected 1 "image" (Thrown "Entity has no id yet").

(** Authors 1 and 2 with their books: 11 and 12, and 13. *)
Definition g_books : graph :=
  graph_of [ (0, "authors", many [1; 2]);
             (1, "books", many [11; 12]);
             (2, "books", many [13]) ].

(** Book 10 has no author set. *)
Definition g_no_author : graph :=
  graph_of [ (10, "author", none_set);
             (1, "publisher", one 0) ].

End Fixtures.

(** ** Entity state

    The rest of [BaseEntity]: the getters over [__orm], [toString] and
    [toJSON]. *)

Module EntityState.

(** A value held in [__orm.data]: a column value, or another entity. *)
Inductive field : Type :=
| FUndefined
| FNull
| FBool (b : bool)
| FNumber (literal : string)
| FString (s : string)
| FEntity (n : node).

(** A plain object, as its own entries in [Object.entries] order. *)
Definition object := list (string * field).

(** [EntityOrmField], with the members the class reads: [metadata.type],
    [data], [originalData] and the optional [deleted]. *)
Record EntityOrmField : Type := mkOrm {
  metadata_type : string;
  data : object;
  originalData : object;
  deleted : option string;
}.

(** An entity: the abstract [id] of the subclass, and [__orm]. *)
Record BaseEntity : Type := mkEntity {
  id : option string;
  __orm : EntityOrmField;
}.

(** [this.id === undefined]. *)
Definition isNewEntity (e : BaseEntity) : bool :=
  match id e with
  | None => true
  | Some _ => false
  end.

(** [this.__orm.deleted !== undefined]. *)
Definition isDeletedEntity (e : BaseEntity) : bool :=
  match deleted (__orm e) with
  | None => false
  | Some _ => true
  end.

(** [Object.keys(this.__orm.originalData).length > 0]. *)
Definition isDirtyEntity (e : BaseEntity) : bool :=
  Nat.ltb 0 (List.length (map fst (originalData (__orm e)))).

(** [this.__orm.deleted === "pending"]. *)
Definition isPendingDelete (e : BaseEntity) : bool :=
  match deleted (__orm e) with
  | None => false
  | Some d => String.eqb d "pending"
  end.

(** [this.isNewEntity || this.isDirtyEntity || this.isPendingDelete]. *)
Definition isPendingFlush (e : BaseEntity) : bool :=
  isNewEntity e || isDirtyEntity e || isPendingDelete e.

(** The template literal [`${this.__orm.metadata.type}#${this.id}`]; an
    [undefined] id prints as ["undefined"]. *)
Definition toString (e : BaseEntity) : string :=
  (metadata_type (__orm e) ++ "#" ++
   match id e with
   | Some i => i
   | None => "undefined"
   end)%string.

(** [isEntity(value)]. *)
Definition isEntity (v : field) : bool :=
  match v with
  | FEntity _ => true
  | _ => false
  end.

(** The entities a [data] may point to. *)
Definition heap := node -> BaseEntity.

(** The callback of the [map] in [toJSON]:
    [[key, isEntity(value) ? value.toString() : value]]. *)
Definition toJSON_entry (h : heap) (entry : string * field) : string * field :=
  let '(key, value) := entry in
  (key, match value with
        | FEntity n => FString (toString (h n))
        | _ => value
        end).

(** [Object.fromEntries(Object.entries(this.__orm.data).map(...))]. *)
Definition toJSON (h : heap) (e : BaseEntity) : object :=
  map (toJSON_entry h) (data (__orm e)).

End EntityState.

(** ** The images of a publisher

    The [get] of the [allImages] custom collection of [Publisher]. *)

Module AllImages.

(** The code of an image type; [ImageTypes.findByCode(code).sortOrder] is
    the parameter [sortOrder] below. *)
Definition ImageType := string.

Record Image : Type := mkImage {
  image_id : node;
  type : ImageType;
}.

(** The publisher as loaded with [allImagesHint]: its images, and its
    authors with their image and the image of each of their books. *)
Record Book : Type := mkBook {
  book_image : option Image;
}.

Record Author : Type := mkAuthor {
  author_image : option Image;
  books : list Book;
}.

Record Publisher : Type := mkPublisher {
  images : list Image;
  authors : list Author;
}.

(** [images.push(value)]. *)
Definition push (images : list (option Image)) (value : option Image)
  : list (option Image) :=
  images ++ [value].

(** The reducer: [images.push(author.image.get); author.books.get.forEach(
    (book) => images.push(book.image.get)); return images]. *)
Definition reducer (images : list (option Image)) (author : Author)
  : list (option Image) :=
  fold_left (fun imgs book => push imgs (book_image book))
            (books author)
            (push images (author_image author)).

(** [loaded.authors.get.reduce(reducer, [...loaded.images.get])]. *)
Definition collected (p : Publisher) : list (option Image) :=
  fold_left reducer (authors p) (map Some (images p)).

(** [.filter((imageOrUndefined) => imageOrUndefined !== undefined)]. *)
Fixpoint filter_defined (l : list (option Image)) : list Image :=
  match l with
  | [] => []
  | Some i :: l' => i :: filter_defined l'
  | None :: l' => filter_defined l'
  end.

(** The comparator:
    [findByCode(a.type).sortOrder - findByCode(b.type).sortOrder]. *)
Definition compare (sortOrder : ImageType -> Z) (a b : Image) : Z :=
  (sortOrder (type a) - sortOrder (type b))%Z.

(** [Array.prototype.sort(compare)]: the array in the order of the
    comparator, elements that compare equal left in the order they had
    (the sort is stable).  [place] puts [x] before the first element it
    does not come after. *)
Fixpoint place (cmp : Image -> Image -> Z) (x : Image) (l : list Image)
  : list Image :=
  match l with
  | [] => [x]
  | y :: l' => if Z.leb (cmp x y) 0 then x :: y :: l' else y :: place cmp x l'
  end.

Definition sort (cmp : Image -> Image -> Z) (l : list Image) : list Image :=
  fold_right (place cmp) [] l.

(** [get]. *)
Definition get (sortOrder : ImageType -> Z) (p : Publisher) : list Image :=
  sort (compare sortOrder) (filter_defined (collected p)).

(** What [get] is to hold, said directly: the publisher's own images,
    then author by author the author's image and the images of the
    books, those that are set. *)
Definition defined (o : option Image) : list Image :=
  match o with
  | Some i => [i]
  | None => []
  end.

Definition images_of_author (a : Author) : list Image :=
  defined (author_image a) ++ flat_map (fun b => defined (book_image b)) (books a).

Definition all_images_spec (p : Publisher) : list Image :=
  images p ++ flat_map images_of_author (authors p).

(** [a] does not come after [b] in sort order. *)
Definition in_order (sortOrder : ImageType -> Z) (a b : Image) : Prop :=
  (sortOrder (type a) <= sortOrder (type b))%Z.

(** [i] has sort order [k]. *)
Definition of_order (sortOrder : ImageType -> Z) (k : Z) (i : Image) : bool :=
  Z.eqb (sortOrder (type i)) k.

(** A sample: sort orders of the three image types, and a publisher with
    one image of its own and two authors. *)
Definition sample_order (t : ImageType) : Z :=
  if String.eqb t "BOOK_IMAGE" then 100%Z
  else if String.eqb t "AUTHOR_IMAGE" then 200%Z
  else 300%Z.

Definition sample_publisher : Publisher :=
  mkPublisher
    [mkImage 1 "PUBLISHER_IMAGE"]
    [mkAuthor (Some (mkImage 2 "AUTHOR_IMAGE"))
              [mkBook (Some (mkImage 3 "BOOK_IMAGE")); mkBook None];
     mkAuthor None [mkBook (Some (mkImage 4 "BOOK_IMAGE"))]].

End AllImages.

(** ** Properties of the recorder *)

Section RecorderFacts.
Import Recorder.

Lemma run_chain_then (R : Type) (ks : list key) (r : R) (p : probe)
      (paths : list string) :
  Recorder.run (chain_then ks r p) paths = (paths ++ map String_ ks, inl r).
Proof.
  revert p paths.
  induction ks as [|k ks IH]; intros p paths; simpl.
  - now rewrite app_nil_r.
  - rewrite IH. now rewrite <- app_assoc.
Qed.

Lemma String_KString (hs : list string) : map String_ (map KString hs) = hs.
Proof.
  induction hs as [|h hs IH]; simpl; [reflexivity|now rewrite IH].
Qed.

Lemma record_chain_then (R : Type) (ks : list key) (r : R) :
  record (chain_then ks r) = (map String_ ks, inl r).
Proof. unfold record. now rewrite run_chain_then. Qed.

End RecorderFacts.

(** C1. A traversal function that is a pure chain of property accesses
    [h1, ..., hn] leaves exactly [h1, ..., hn] in [paths], in access order:
    the recorder takes neither the graph nor the root, the list holds the
    [n] names of one invocation, and whatever [r] the function returns is
    dropped, [load] walking the recorded path from [this]. *)
Theorem path_fidelity :
  forall (R : Type) (hs : list string) (r : R) (g : Walker.graph) (this : node),
    let fn := Recorder.chain_then (map Recorder.KString hs) r in
    fst (Recorder.record fn) = hs /\
    Walker.load g this fn = Walker.walk g (Single (Entity this)) hs.
Proof.
  intros R hs r g this fn. unfold fn, Walker.load.
  rewrite record_chain_then, String_KString. split; reflexivity.
Qed.

Lemma run_reads (R : Type) (b : Recorder.body R) (paths : list string) :
  Recorder.run b paths =
  (paths ++ map Recorder.String_ (Recorder.reads b), Recorder.completion b).
Proof.
  revert paths.
  induction b as [r|receiver property k IH|e]; intros paths; simpl.
  - now rewrite app_nil_r.
  - rewrite IH. now rewrite <- app_assoc.
  - now rewrite app_nil_r.
Qed.

(** C8, as the code has it.  The recorder has no error of its own: every
    read the function performs on the probe, chained or not, is appended
    to [paths] as [String(property)], and [load] goes on to walk that
    list.  The call ends before any resolution only when the function
    itself throws, and then with what it threw. *)
Theorem recorder_records_every_read :
  forall (R : Type) (fn : Recorder.fn_type R) (g : Walker.graph) (this : node),
    let b := fn Recorder.TheProxy in
    fst (Recorder.record fn) = map Recorder.String_ (Recorder.reads b) /\
    match Recorder.completion b with
    | inl _ =>
        Walker.load g this fn =
        Walker.walk g (Single (Entity this)) (map Recorder.String_ (Recorder.reads b))
    | inr e => Walker.run (Walker.load g this fn) = ([], Walker.Fail e)
    end.
Proof.
  intros R fn g this b. unfold Walker.load, Recorder.record.
  fold b. rewrite run_reads. simpl. split; [reflexivity|].
  destruct (Recorder.completion b); reflexivity.
Qed.

(** C8 fails on the code: a function that reads two properties off the
    same probe and drops the first result is not a chain, yet the recorder
    raises nothing, records both names, and the walk resolves both edges
    (book 10, its author 1, that author's publisher 0). *)
Lemma non_chaining_is_recorded :
  let fn := Recorder.two_reads (Recorder.KString "author")
                               (Recorder.KString "publisher") in
  Recorder.record fn = (["author"; "publisher"], inl Recorder.TheProxy) /\
  Walker.run (Walker.load Fixtures.g_publisher 10 fn) =
  ([(10, "author"); (1, "publisher")], Walker.Ok (Single (Entity 0))).
Proof. split; reflexivity. Qed.

(** ** Properties of the walker *)

Section SetFacts.
Import Walker.

Lemma Set_has_In (s : list elem) (x : elem) : Set_has s x = true <-> In x s.
Proof.
  unfold Set_has. rewrite existsb_exists. split.
  - intros [y [Hy Heq]]. unfold elem_eqb in Heq.
    destruct (elem_eq_dec x y); [now subst|discriminate].
  - intros H. exists x. split; [assumption|].
    unfold elem_eqb. destruct (elem_eq_dec x x); congruence.
Qed.

Lemma Set_has_snoc (s : list elem) (x y : elem) :
  Set_has (s ++ [x]) y = Set_has s y || elem_eqb y x.
Proof.
  unfold Set_has. rewrite existsb_app. simpl. now rewrite orb_false_r.
Qed.

Lemma filter_fresh_remove_seen (s : list elem) (x : elem) (l : list elem) :
  Set_has s x = true ->
  filter (fresh s) (remove elem_eq_dec x l) = filter (fresh s) l.
Proof.
  intros Hx. induction l as [|y l IH]; simpl; [reflexivity|].
  destruct (elem_eq_dec x y) as [->|Hne]; simpl.
  - unfold fresh at 2. rewrite Hx. simpl. exact IH.
  - now rewrite IH.
Qed.

Lemma filter_fresh_snoc (s : list elem) (x : elem) (l : list elem) :
  filter (fresh (s ++ [x])) l = filter (fresh s) (remove elem_eq_dec x l).
Proof.
  induction l as [|y l IH]; simpl; [reflexivity|].
  unfold fresh at 1. rewrite Set_has_snoc. unfold elem_eqb.
  destruct (elem_eq_dec x y) as [->|Hne].
  - destruct (elem_eq_dec y y); [|congruence].
    rewrite orb_true_r. simpl. exact IH.
  - destruct (elem_eq_dec y x); [congruence|].
    rewrite orb_false_r. simpl. fold (fresh s y).
    destruct (fresh s y); now rewrite IH.
Qed.

Lemma fold_Set_add (l s : list elem) :
  fold_left Set_add l s = s ++ filter (fresh s) (dedup_first_seen l).
Proof.
  revert s. induction l as [|x l IH]; intros s; simpl.
  - now rewrite app_nil_r.
  - rewrite IH. unfold Set_add, fresh at 2.
    destruct (Set_has s x) eqn:Hx; simpl.
    + now rewrite filter_fresh_remove_seen.
    + rewrite filter_fresh_snoc, <- app_assoc. reflexivity.
Qed.

Lemma filter_fresh_nil (l : list elem) : filter (fresh []) l = l.
Proof.
  induction l as [|x l IH]; simpl; [reflexivity|now rewrite IH].
Qed.

(** [[...new Set(l)]] is [l] de-duplicated, first occurrences kept in
    their order. *)
Lemma spread_new_Set (l : list elem) :
  spread (new_Set l) = dedup_first_seen l.
Proof.
  unfold spread, new_Set. rewrite fold_Set_add. simpl.
  apply filter_fresh_nil.
Qed.

Lemma NoDup_remove_elem (x : elem) (l : list elem) :
  NoDup l -> NoDup (remove elem_eq_dec x l).
Proof.
  induction 1 as [|y l Hy Hnd IH]; simpl; [constructor|].
  destruct (elem_eq_dec x y); [assumption|].
  constructor; [|assumption].
  intros Hin. apply in_remove in Hin. tauto.
Qed.

Lemma dedup_first_seen_NoDup (l : list elem) : NoDup (dedup_first_seen l).
Proof.
  induction l as [|x l IH]; simpl; constructor.
  - apply remove_In.
  - now apply NoDup_remove_elem.
Qed.

Lemma dedup_first_seen_In (l : list elem) (x : elem) :
  In x (dedup_first_seen l) <-> In x l.
Proof.
  induction l as [|y l IH]; simpl; [tauto|].
  split.
  - intros [->|Hin]; [now left|].
    apply in_remove in Hin. right. now apply IH.
  - intros [->|Hin]; [now left|].
    destruct (elem_eq_dec x y) as [->|Hne]; [now left|].
    right. apply in_in_remove; [assumption|now apply IH].
Qed.

End SetFacts.

Section StepFacts.
Import Walker.
Variable g : graph.
Variable path : hop.

Lemma member_load_Ok (c : elem) (log log' : list call) (p : promise) :
  member_load g path c log = (log', Ok p) ->
  exists n, c = Entity n /\ g n path = Loads p /\ log' = log ++ [(n, path)].
Proof.
  destruct c as [|n]; simpl; [discriminate|].
  destruct (g n path) as [q| |e0] eqn:Hq; try discriminate.
  intros H. inversion H; subst. now exists n.
Qed.

Lemma member_load_Fail (c : elem) (log log' : list call) (e : error) :
  member_load g path c log = (log', Fail e) ->
  log' = log /\ throws_at_once g path c e.
Proof.
  destruct c as [|n]; simpl.
  - intros H. inversion H. auto.
  - destruct (g n path) as [q| |e0] eqn:Hq; try discriminate;
      intros H; inversion H; auto.
Qed.

Lemma throws_at_once_fails (c : elem) (e : error) :
  throws_at_once g path c e -> resolution_fails g path c e.
Proof.
  destruct c as [|n]; simpl; [auto|].
  destruct (g n path); tauto.
Qed.

Lemma throws_at_once_not_loadable (c : elem) (e : error) :
  throws_at_once g path c e -> ~ loadable g path c.
Proof.
  intros Ht [n [p [-> Hn]]]. simpl in Ht. now rewrite Hn in Ht.
Qed.

(** What the [map] leaves behind: the loads it issued are loads of
    [path] on members; either every member gave a promise, or a member
    threw on the spot. *)
Lemma map_load_spec (l : list elem) :
  forall (log log' : list call) (r : outcome (list promise)),
    map_load g path l log = (log', r) ->
    (exists calls, log' = log ++ calls /\
                   Forall (in_batch (Array l) path) calls) /\
    match r with
    | Ok ps => Forall2 (fun c p => exists n, c = Entity n /\ g n path = Loads p) l ps
    | Fail e => exists c, In c l /\ throws_at_once g path c e
    end.
Proof.
  induction l as [|c l IH]; intros log log' r; simpl.
  - unfold ret. intros H. inversion H; subst. split.
    + exists []. now rewrite app_nil_r.
    + constructor.
  - unfold bind at 1.
    destruct (member_load g path c log) as [log1 [p|e]] eqn:Hc.
    + apply member_load_Ok in Hc. destruct Hc as [n [-> [Hn ->]]].
      unfold bind.
      destruct (map_load g path l (log ++ [(n, path)])) as [log2 [ps|e]] eqn:Hl;
        apply IH in Hl; destruct Hl as [[calls [-> Hcalls]] Hr];
        unfold ret; intros H; inversion H; subst; split.
      * exists ((n, path) :: calls). rewrite <- app_assoc. split; [reflexivity|].
        constructor; [split; simpl; auto|].
        eapply Forall_impl; [|exact Hcalls].
        intros a [Ha1 Ha2]. split; simpl in *; auto.
      * constructor; [now exists n|assumption].
      * exists ((n, path) :: calls). rewrite <- app_assoc. split; [reflexivity|].
        constructor; [split; simpl; auto|].
        eapply Forall_impl; [|exact Hcalls].
        intros a [Ha1 Ha2]. split; simpl in *; auto.
      * destruct Hr as [c' [Hin Hf]].
        exists c'. split; [now right|assumption].
    + apply member_load_Fail in Hc. destruct Hc as [-> Hf].
      intros H. inversion H; subst. split.
      * exists []. now rewrite app_nil_r.
      * exists c. split; [now left|assumption].
Qed.

Lemma first_rejected_Some (ps : list promise) (t : nat) (e : error) :
  first_rejected ps = Some (t, e) ->
  exists p, In p ps /\ result p = Rejected e.
Proof.
  revert t e. induction ps as [|p ps IH]; intros t e; simpl; [discriminate|].
  destruct (result p) as [v|e0] eqn:Hp.
  - intros H. destruct (IH _ _ H) as [q [Hq1 Hq2]]. exists q. auto.
  - destruct (first_rejected ps) as [[t' e']|].
    + destruct (Nat.ltb t' (settles_at p)); intros H; inversion H; subst.
      * destruct (IH _ _ eq_refl) as [q [Hq1 Hq2]]. exists q. auto.
      * exists p. auto.
    + intros H. inversion H; subst. exists p. auto.
Qed.

Lemma first_rejected_None (ps : list promise) :
  first_rejected ps = None ->
  Forall2 (fun p v => result p = Fulfilled v) ps (fulfilled_values ps).
Proof.
  induction ps as [|p ps IH]; simpl; [constructor|].
  destruct (result p) as [v|e0] eqn:Hp.
  - intros H. constructor; auto.
  - destruct (first_rejected ps) as [[t' e']|]; [|discriminate].
    destruct (Nat.ltb t' (settles_at p)); discriminate.
Qed.

Lemma first_rejected_fulfilled (ps : list promise) (vs : list value) :
  Forall2 (fun p v => result p = Fulfilled v) ps vs ->
  first_rejected ps = None /\ fulfilled_values ps = vs.
Proof.
  induction 1 as [|p v ps vs Hp _ [IH1 IH2]]; simpl; [auto|].
  rewrite Hp, IH1, IH2. auto.
Qed.

Lemma first_rejected_exists (ps : list promise) (p : promise) (e : error) :
  In p ps -> result p = Rejected e -> first_rejected ps <> None.
Proof.
  induction ps as [|q ps IH]; simpl; [tauto|].
  intros [->|Hin] Hp.
  - rewrite Hp. destruct (first_rejected ps) as [[t' e']|]; [|discriminate].
    destruct (Nat.ltb t' (settles_at p)); discriminate.
  - specialize (IH Hin Hp).
    destruct (result q); [assumption|].
    destruct (first_rejected ps) as [[t' e']|]; [|discriminate].
    destruct (Nat.ltb t' (settles_at q)); discriminate.
Qed.

End StepFacts.

Section WalkFacts.
Import Walker.
Variable g : graph.

Lemma Forall2_In_l (A B : Type) (P : A -> B -> Prop) (l : list A) (l' : list B) (a : A) :
  Forall2 P l l' -> In a l -> exists b, In b l' /\ P a b.
Proof.
  induction 1 as [|x y l l' Hxy _ IH]; simpl; [tauto|].
  intros [->|Hin].
  - exists y. auto.
  - destruct (IH Hin) as [b [Hb1 Hb2]]. exists b. auto.
Qed.

Lemma Forall2_In_r (A B : Type) (P : A -> B -> Prop) (l : list A) (l' : list B) (b : B) :
  Forall2 P l l' -> In b l' -> exists a, In a l /\ P a b.
Proof.
  induction 1 as [|x y l l' Hxy _ IH]; simpl; [tauto|].
  intros [->|Hin].
  - exists x. auto.
  - destruct (IH Hin) as [a [Ha1 Ha2]]. exists a. auto.
Qed.

(** A turn of the loop only issues loads of its own batch. *)
Lemma step_log (current : value) (path : hop) (log log' : list call)
      (r : outcome value) :
  step g current path log = (log', r) ->
  exists calls, log' = log ++ calls /\ Forall (in_batch current path) calls.
Proof.
  destruct current as [c|l]; simpl; unfold bind.
  - destruct (member_load g path c log) as [log1 [p|e]] eqn:Hc.
    + apply member_load_Ok in Hc. destruct Hc as [n [-> [Hn ->]]].
      unfold await. destruct (result p); unfold ret, throw;
        intros H; inversion H; subst; exists [(n, path)];
        (split; [reflexivity|]); constructor; auto;
        split; simpl; auto.
    + apply member_load_Fail in Hc. destruct Hc as [-> _].
      intros H. inversion H; subst. exists []. now rewrite app_nil_r.
  - destruct (map_load g path l log) as [log1 [ps|e]] eqn:Hl;
      apply map_load_spec in Hl; destruct Hl as [[calls [-> Hcalls]] _].
    + unfold await_all.
      destruct (first_rejected ps) as [[t e]|]; unfold ret, throw;
        intros H; inversion H; subst; now exists calls.
    + intros H. inversion H; subst. now exists calls.
Qed.

(** A turn that fails, fails with the error of a member's resolution. *)
Lemma step_Fail_sound (current : value) (path : hop) (log log' : list call)
      (e : error) :
  step g current path log = (log', Fail e) ->
  exists c, In c (members current) /\ resolution_fails g path c e.
Proof.
  destruct current as [c|l]; simpl; unfold bind.
  - destruct (member_load g path c log) as [log1 [p|e0]] eqn:Hc.
    + apply member_load_Ok in Hc. destruct Hc as [n [-> [Hn ->]]].
      unfold await. destruct (result p) as [v|e1] eqn:Hp; unfold ret, throw;
        intros H; inversion H; subst.
      exists (Entity n). split; [now left|]. simpl. now rewrite Hn.
    + apply member_load_Fail in Hc. destruct Hc as [-> Hf].
      intros H. inversion H; subst. exists c.
      split; [now left|now apply throws_at_once_fails].
  - destruct (map_load g path l log) as [log1 [ps|e0]] eqn:Hl;
      apply map_load_spec in Hl; destruct Hl as [_ Hr].
    + unfold await_all.
      destruct (first_rejected ps) as [[t e1]|] eqn:Hfr; unfold ret, throw;
        intros H; inversion H; subst.
      apply first_rejected_Some in Hfr. destruct Hfr as [p [Hin Hp]].
      destruct (Forall2_In_r _ Hr Hin) as [c [Hc [n [-> Hn]]]].
      exists (Entity n). split; [assumption|]. simpl. now rewrite Hn.
    + destruct Hr as [c [Hin Hf]].
      intros H. inversion H; subst. exists c.
      split; [assumption|now apply throws_at_once_fails].
Qed.

(** A turn in which a member's resolution fails, fails. *)
Lemma step_Fail_complete (current : value) (path : hop) (log : list call)
      (c : elem) (e : error) :
  In c (members current) -> resolution_fails g path c e ->
  exists log' e', step g current path log = (log', Fail e').
Proof.
  destruct current as [c0|l]; simpl; unfold bind.
  - intros [->|[]] Hf.
    destruct c as [|n]; simpl in *; unfold throw; [eauto|].
    destruct (g n path) as [p| |e0] eqn:Hn; unfold throw; [|eauto|eauto].
    unfold await. rewrite Hf. unfold throw. eauto.
  - intros Hin Hf.
    destruct (map_load g path l log) as [log1 [ps|e0]] eqn:Hl; [|eauto].
    apply map_load_spec in Hl. destruct Hl as [_ Hr].
    destruct (Forall2_In_l _ Hr Hin) as [p [Hp [n [-> Hn]]]].
    simpl in Hf. rewrite Hn in Hf.
    unfold await_all.
    destruct (first_rejected ps) as [[t e1]|] eqn:Hfr; unfold throw; [eauto|].
    exfalso. eapply first_rejected_exists; eauto.
Qed.

(** A turn over an array whose members all resolve leaves the
    de-duplicated flattening of what they resolved to. *)
Lemma step_Array_Ok (l : list elem) (vs : list value) (path : hop)
      (log : list call) :
  Forall2 (resolves_to g path) l vs ->
  exists calls,
    step g (Array l) path log =
    (log ++ calls, Ok (Array (dedup_first_seen (flat vs)))).
Proof.
  intros Hres. simpl. unfold bind.
  destruct (map_load g path l log) as [log1 [ps|e0]] eqn:Hl;
    apply map_load_spec in Hl; destruct Hl as [[calls [-> _]] Hr].
  - assert (Hpv : Forall2 (fun p v => result p = Fulfilled v) ps vs).
    { clear - Hres Hr. revert vs Hres.
      induction Hr as [|c p l ps [n [-> Hn]] _ IH]; intros vs Hres;
        inversion Hres; subst; constructor.
      - simpl in *. now rewrite Hn in *.
      - now apply IH. }
    apply first_rejected_fulfilled in Hpv. destruct Hpv as [Hnone Hvs].
    unfold await_all. rewrite Hnone, Hvs. unfold ret.
    rewrite spread_new_Set. now exists calls.
  - exfalso. destruct Hr as [c [Hin Hf]].
    destruct (Forall2_In_l _ Hres Hin) as [v [_ Hv]].
    destruct c as [|n]; simpl in *; [assumption|].
    destruct (g n path); assumption.
Qed.

(** A turn over an array leaves an array, without repetition. *)
Lemma step_Array_shape (l : list elem) (path : hop) (log log' : list call)
      (v : value) :
  step g (Array l) path log = (log', Ok v) ->
  exists l', v = Array l' /\ NoDup l'.
Proof.
  simpl. unfold bind.
  destruct (map_load g path l log) as [log1 [ps|e0]]; [|discriminate].
  unfold await_all.
  destruct (first_rejected ps) as [[t e1]|]; unfold ret, throw; [discriminate|].
  intros H. inversion H; subst. rewrite spread_new_Set.
  eexists. split; [reflexivity|apply dedup_first_seen_NoDup].
Qed.

Lemma walk_app (p1 p2 : list hop) :
  forall (current : value) (log : list call),
    walk g current (p1 ++ p2) log =
    match walk g current p1 log with
    | (log', Ok v) => walk g v p2 log'
    | (log', Fail e) => (log', Fail e)
    end.
Proof.
  induction p1 as [|h p1 IH]; intros current log; simpl; [reflexivity|].
  unfold bind. destruct (step g current h log) as [log1 [v|e]]; [|reflexivity].
  apply IH.
Qed.

Lemma walk_Array_shape (paths : list hop) :
  forall (l : list elem) (log log' : list call) (v : value),
    walk g (Array l) paths log = (log', Ok v) ->
    exists l', v = Array l'.
Proof.
  induction paths as [|h paths IH]; intros l log log' v; cbn [walk].
  - unfold ret. intros H. inversion H; subst. now exists l.
  - unfold bind.
    destruct (step g (Array l) h log) as [log1 [v1|e]] eqn:Hs; [|discriminate].
    apply step_Array_shape in Hs. destruct Hs as [l1 [-> _]].
    apply IH.
Qed.

End WalkFacts.

Section Scenarios.
Import Walker.
Variable g : graph.

(** An edge that resolves is a row of the graph with a fulfilled
    promise. *)
Lemma resolves_to_inv (path : hop) (c : elem) (v : value) :
  resolves_to g path c v ->
  exists n p, c = Entity n /\ g n path = Loads p /\ result p = Fulfilled v.
Proof.
  destruct c as [|n]; simpl; [tauto|].
  destruct (g n path) as [p| |e0] eqn:Hn; [|tauto|tauto].
  intros H. exists n, p. auto.
Qed.

Lemma step_Single_Ok (path : hop) (c : elem) (v : value) (log : list call) :
  resolves_to g path c v ->
  exists n, c = Entity n /\
            step g (Single c) path log = (log ++ [(n, path)], Ok v).
Proof.
  intros H. apply resolves_to_inv in H.
  destruct H as [n [p [-> [Hn Hp]]]]. exists n. split; [reflexivity|].
  simpl. unfold bind. rewrite Hn. unfold await. now rewrite Hp.
Qed.

Lemma step_pair_Ok (path : hop) (b1 b2 : node) (v1 v2 : value)
      (log : list call) :
  resolves_to g path (Entity b1) v1 ->
  resolves_to g path (Entity b2) v2 ->
  step g (Array [Entity b1; Entity b2]) path log =
  (log ++ [(b1, path); (b2, path)],
   Ok (Array (dedup_first_seen (flat [v1; v2])))).
Proof.
  intros H1 H2.
  apply resolves_to_inv in H1. destruct H1 as [n1 [p1 [E1 [Hn1 Hp1]]]].
  apply resolves_to_inv in H2. destruct H2 as [n2 [p2 [E2 [Hn2 Hp2]]]].
  inversion E1; inversion E2; subst n1 n2.
  cbn [step map_load]. unfold bind, member_load. rewrite Hn1, Hn2.
  unfold ret, await_all. cbn [first_rejected fulfilled_values].
  rewrite Hp1, Hp2. unfold ret.
  rewrite spread_new_Set, <- app_assoc. reflexivity.
Qed.

End Scenarios.

(** C2. Root [a] with plural edge [e1] resolving to [b1, b2], each [bi]
    with singular edge [e2] resolving to [ci], the two distinct: walking
    [e1, e2] issues the loads in frontier order and returns [c1, c2],
    [c1] first. *)
Theorem fan_out_preserves_order :
  forall (g : Walker.graph) (a b1 b2 c1 c2 : node) (e1 e2 : Walker.hop),
    Walker.resolves_to g e1 (Entity a) (Array [Entity b1; Entity b2]) ->
    Walker.resolves_to g e2 (Entity b1) (Single (Entity c1)) ->
    Walker.resolves_to g e2 (Entity b2) (Single (Entity c2)) ->
    c1 <> c2 ->
    Walker.run (Walker.walk g (Single (Entity a)) [e1; e2]) =
    ([(a, e1); (b1, e2); (b2, e2)], Walker.Ok (Array [Entity c1; Entity c2])).
Proof.
  intros g a b1 b2 c1 c2 e1 e2 Ha Hb1 Hb2 Hne.
  unfold Walker.run. cbn [Walker.walk]. unfold Walker.bind at 1.
  destruct (@step_Single_Ok g _ _ _ [] Ha) as [n [E ->]]. inversion E; subst n.
  unfold Walker.bind. rewrite (@step_pair_Ok g _ _ _ _ _ _ Hb1 Hb2).
  unfold Walker.ret. simpl.
  destruct (elem_eq_dec (Entity c1) (Entity c2)) as [E'|_]; [congruence|].
  reflexivity.
Qed.

(** C2 at publisher 0, authors 1 and 2, images 3 and 4. *)
Lemma fan_out_preserves_order_witness :
  Walker.run (Walker.walk Fixtures.g_images (Single (Entity 0)) ["authors"; "image"]) =
  ([(0, "authors"); (1, "image"); (2, "image")],
   Walker.Ok (Array [Entity 3; Entity 4])).
Proof.
  apply (@fan_out_preserves_order Fixtures.g_images 0 1 2 3 4 "authors" "image");
    [reflexivity|reflexivity|reflexivity|lia].
Defined.

(** C3. Over an array frontier whose members all resolve, the turn
    leaves the flattening of what they resolved to, de-duplicated by
    identity with first occurrences kept in their order: no element
    twice, none lost.  With [a]'s plural edge [e1] resolving to [b1, b2]
    and both [bi]'s edge resolving to the same [c], walking the two hops
    returns the one-element [c]. *)
Theorem plural_hop_deduplicates :
  forall (g : Walker.graph) (l : list elem) (vs : list value)
         (path : Walker.hop) (log : list Walker.call),
    Forall2 (Walker.resolves_to g path) l vs ->
    let l' := Walker.dedup_first_seen (Walker.flat vs) in
    (exists calls,
        Walker.step g (Array l) path log = (log ++ calls, Walker.Ok (Array l'))) /\
    NoDup l' /\
    (forall x, In x l' <-> In x (Walker.flat vs)) /\
    (forall (a b1 b2 c : node) (e1 : Walker.hop),
        Walker.resolves_to g e1 (Entity a) (Array l) ->
        l = [Entity b1; Entity b2] ->
        vs = [Single (Entity c); Single (Entity c)] ->
        Walker.run (Walker.walk g (Single (Entity a)) [e1; path]) =
        ([(a, e1); (b1, path); (b2, path)], Walker.Ok (Array [Entity c]))).
Proof.
  intros g l vs path log Hres l'. repeat split.
  - apply step_Array_Ok. exact Hres.
  - apply dedup_first_seen_NoDup.
  - apply dedup_first_seen_In.
  - apply dedup_first_seen_In.
  - intros a b1 b2 c e1 Ha -> ->.
    inversion Hres as [|? ? ? ? Hb1 Hrest]; subst.
    inversion Hrest as [|? ? ? ? Hb2 _]; subst.
    unfold Walker.run. cbn [Walker.walk]. unfold Walker.bind at 1.
    destruct (@step_Single_Ok g _ _ _ [] Ha) as [n [E ->]]. inversion E; subst n.
    unfold Walker.bind. rewrite (@step_pair_Ok g _ _ _ _ _ _ Hb1 Hb2).
    unfold Walker.ret. simpl.
    destruct (elem_eq_dec (Entity c) (Entity c)); [reflexivity|congruence].
Qed.

(** C3 at publisher 0 and its authors 1 and 2, whose publisher is 0. *)
Lemma plural_hop_deduplicates_witness :
  Walker.run (Walker.walk Fixtures.g_publisher (Single (Entity 0))
                          ["authors"; "publisher"]) =
  ([(0, "authors"); (1, "publisher"); (2, "publisher")],
   Walker.Ok (Array [Entity 0])).
Proof.
  assert (H : Forall2 (Walker.resolves_to Fixtures.g_publisher "publisher")
                      [Entity 1; Entity 2]
                      [Single (Entity 0); Single (Entity 0)]).
  { constructor; [reflexivity|]. constructor; [reflexivity|]. constructor. }
  apply (proj2 (proj2 (proj2
           (@plural_hop_deduplicates Fixtures.g_publisher _ _ "publisher" [] H)))
           0 1 2 0 "authors");
    reflexivity.
Defined.

(** C4, as the code has it.  Over an array frontier whose members all
    resolve, one of them to an unset singular edge, the turn throws
    nothing and the absent value stays in the resulting array, as one
    [undefined] element. *)
Theorem absent_target_is_kept :
  forall (g : Walker.graph) (l : list elem) (vs : list value)
         (path : Walker.hop) (log : list Walker.call),
    Forall2 (Walker.resolves_to g path) l vs ->
    In (Single Undefined) vs ->
    exists calls l',
      Walker.step g (Array l) path log = (log ++ calls, Walker.Ok (Array l')) /\
      count_occ elem_eq_dec l' Undefined = 1.
Proof.
  intros g l vs path log Hres Hin.
  destruct (@step_Array_Ok g l vs path log Hres) as [calls Hstep].
  exists calls, (Walker.dedup_first_seen (Walker.flat vs)).
  split; [exact Hstep|].
  apply NoDup_count_occ'; [apply dedup_first_seen_NoDup|].
  apply dedup_first_seen_In.
  clear - Hin. induction vs as [|v vs IH]; simpl in *; [tauto|].
  destruct Hin as [->|Hin]; [now left|].
  destruct v as [e|l0]; [right|apply in_or_app; right]; auto.
Qed.

(** C4 (as amended) at authors 1 and 2, the second without image. *)
Lemma absent_target_is_kept_witness :
  exists calls l',
    Walker.step Fixtures.g_no_image (Array [Entity 1; Entity 2]) "image"
                [(0, "authors")] =
    ([(0, "authors")] ++ calls, Walker.Ok (Array l')) /\
    count_occ elem_eq_dec l' Undefined = 1.
Proof.
  apply (@absent_target_is_kept Fixtures.g_no_image
           [Entity 1; Entity 2] [Single (Entity 3); Single Undefined]).
  - constructor; [reflexivity|]. constructor; [reflexivity|]. constructor.
  - simpl. auto.
Defined.

(** C4 fails on the code: author 2 has no image, and the walk over
    [authors, image] returns an array whose second element is
    [undefined]. *)
Lemma absent_target_not_filtered :
  Walker.run (Walker.walk Fixtures.g_no_image (Single (Entity 0))
                          ["authors"; "image"]) =
  ([(0, "authors"); (1, "image"); (2, "image")],
   Walker.Ok (Array [Entity 3; Undefined])).
Proof. reflexivity. Qed.

(** C5, as the code has it.  A hop resolved from a single-entity frontier
    makes the resolved value the frontier as it is, a sequence included,
    with no de-duplication; it is a hop resolved from an array frontier
    that leaves an array without repetition. *)
Theorem single_frontier_hop_is_verbatim :
  forall (g : Walker.graph) (c : elem) (v : value) (path : Walker.hop)
         (log : list Walker.call),
    Walker.resolves_to g path c v ->
    (exists n, c = Entity n /\
               Walker.step g (Single c) path log =
               (log ++ [(n, path)], Walker.Ok v)) /\
    (forall (l : list elem) (log' : list Walker.call) (v' : value),
        Walker.step g (Array l) path log = (log', Walker.Ok v') ->
        exists l', v' = Array l' /\ NoDup l').
Proof.
  intros g c v path log Hres. split.
  - apply step_Single_Ok. exact Hres.
  - intros l log' v'. apply step_Array_shape.
Qed.

(** C5 (as amended) at the collection that answers author 1 twice. *)
Lemma single_frontier_hop_is_verbatim_witness :
  exists n, Entity 0 = Entity n /\
            Walker.step Fixtures.g_twice (Single (Entity 0)) "authors" [] =
            ([] ++ [(n, "authors")], Walker.Ok (Array [Entity 1; Entity 1])).
Proof.
  apply (@single_frontier_hop_is_verbatim Fixtures.g_twice (Entity 0)
           (Array [Entity 1; Entity 1]) "authors" []).
  reflexivity.
Defined.

(** C5 fails on the code: the first fan-out is not de-duplicated.  A
    collection that answers [1, 1] leaves the frontier [1, 1]. *)
Lemma first_fan_out_not_deduplicated :
  Walker.run (Walker.walk Fixtures.g_twice (Single (Entity 0)) ["authors"]) =
  ([(0, "authors")], Walker.Ok (Array [Entity 1; Entity 1])) /\
  ~ NoDup [Entity 1; Entity 1].
Proof.
  split; [reflexivity|].
  intros H. inversion H as [|x l Hx _]; subst. apply Hx. now left.
Qed.

Section BatchFacts.
Import Walker.
Variable g : graph.
Variable path : hop.

Lemma batch_calls_app (l1 l2 : list elem) :
  batch_calls path (l1 ++ l2) = batch_calls path l1 ++ batch_calls path l2.
Proof. unfold batch_calls. apply flat_map_app. Qed.

(** A [map] over members that all have the edge issues every load. *)
Lemma map_load_loadable (l : list elem) :
  Forall (loadable g path) l ->
  forall log : list call,
  exists ps,
    map_load g path l log = (log ++ batch_calls path l, Ok ps) /\
    Forall2 (fun c p => exists n, c = Entity n /\ g n path = Loads p) l ps.
Proof.
  induction 1 as [|c l [n [p [-> Hn]]] _ IH]; intros log.
  - exists []. simpl. unfold ret. rewrite app_nil_r. split; constructor.
  - destruct (IH (log ++ [(n, path)])) as [ps [Hmap Hall]].
    exists (p :: ps). cbn [map_load]. unfold bind, member_load.
    rewrite Hn, Hmap. unfold ret. simpl. rewrite <- app_assoc. split.
    + reflexivity.
    + constructor; [now exists n|assumption].
Qed.

Lemma resolves_to_loadable (c : elem) (v : value) :
  resolves_to g path c v -> loadable g path c.
Proof.
  destruct c as [|n]; simpl; [tauto|].
  destruct (g n path) as [p| |e0] eqn:Hn; [|tauto|tauto].
  intros _. now exists n, p.
Qed.

Lemma Forall2_resolves_loadable (l : list elem) (vs : list value) :
  Forall2 (resolves_to g path) l vs -> Forall (loadable g path) l.
Proof.
  induction 1 as [|c v l vs Hc _ IH]; constructor; [|assumption].
  eapply resolves_to_loadable. exact Hc.
Qed.

(** A turn over an array that goes through: every member resolved, and
    the new frontier is the de-duplicated flattening. *)
Lemma step_Array_inv (l : list elem) (log log' : list call) (v : value) :
  step g (Array l) path log = (log', Ok v) ->
  exists vs, Forall2 (resolves_to g path) l vs /\
             v = Array (dedup_first_seen (flat vs)).
Proof.
  simpl. unfold bind.
  destruct (map_load g path l log) as [log1 [ps|e0]] eqn:Hl; [|discriminate].
  apply map_load_spec in Hl. destruct Hl as [_ Hr].
  unfold await_all.
  destruct (first_rejected ps) as [[t e1]|] eqn:Hfr; unfold ret, throw;
    [discriminate|].
  intros H. inversion H; subst. rewrite spread_new_Set.
  exists (fulfilled_values ps). split; [|reflexivity].
  apply first_rejected_None in Hfr. clear - Hr Hfr.
  revert Hfr. generalize (fulfilled_values ps) as vs.
  induction Hr as [|c p l ps [n [-> Hn]] _ IH]; intros vs Hfr;
    inversion Hfr; subst; constructor.
  - simpl. now rewrite Hn.
  - now apply IH.
Qed.

(** The rejection [Promise.all] reports is one no other rejection
    precedes. *)
Lemma first_rejected_earliest (ps : list promise) :
  forall (t : nat) (e : error),
    first_rejected ps = Some (t, e) ->
    (exists p, In p ps /\ result p = Rejected e /\ settles_at p = t) /\
    (forall q e', In q ps -> result q = Rejected e' -> t <= settles_at q).
Proof.
  induction ps as [|p ps IH]; intros t e; simpl; [discriminate|].
  destruct (result p) as [v|e0] eqn:Hp.
  - intros H. destruct (IH _ _ H) as [[q [Hq1 Hq2]] Hmin]. split.
    + exists q. auto.
    + intros q' e' [<-|Hin] Hq'; [congruence|eauto].
  - destruct (first_rejected ps) as [[t' e']|] eqn:Hfr.
    + destruct (IH _ _ eq_refl) as [[q [Hq1 [Hq2 Hq3]]] Hmin].
      destruct (Nat.ltb t' (settles_at p)) eqn:Hlt; intros H; inversion H; subst.
      * apply Nat.ltb_lt in Hlt. split.
        -- exists q. auto.
        -- intros q' e'' [<-|Hin] Hq'; [lia|eauto].
      * apply Nat.ltb_ge in Hlt. split.
        -- exists p. auto.
        -- intros q' e'' [<-|Hin] Hq'; [lia|].
           specialize (Hmin _ _ Hin Hq'). lia.
    + intros H. inversion H; subst. split.
      * exists p. auto.
      * intros q' e'' [<-|Hin] Hq'; [lia|].
        exfalso. eapply first_rejected_exists; eauto.
Qed.

(** The rejection [Promise.all] reports, by position: the rejected
    loads before it settle later, those after it do not settle
    earlier. *)
Lemma first_rejected_position (ps : list promise) :
  forall (t : nat) (e : error),
    first_rejected ps = Some (t, e) ->
    exists ps1 p ps2,
      ps = ps1 ++ p :: ps2 /\ result p = Rejected e /\ settles_at p = t /\
      Forall (fun q => forall e', result q = Rejected e' -> t < settles_at q) ps1 /\
      Forall (fun q => forall e', result q = Rejected e' -> t <= settles_at q) ps2.
Proof.
  induction ps as [|p ps IH]; intros t e; simpl; [discriminate|].
  destruct (result p) as [v|e0] eqn:Hp.
  - intros H. destruct (IH _ _ H) as [ps1 [p0 [ps2 [-> [H1 [H2 [H3 H4]]]]]]].
    exists (p :: ps1), p0, ps2.
    split; [reflexivity|]. split; [assumption|]. split; [assumption|].
    split; [|assumption].
    constructor; [|assumption]. intros e' He'. congruence.
  - destruct (first_rejected ps) as [[t' e']|] eqn:Hfr.
    + destruct (Nat.ltb t' (settles_at p)) eqn:Hlt; intros H; inversion H; subst.
      * apply Nat.ltb_lt in Hlt.
        destruct (IH _ _ eq_refl) as [ps1 [p0 [ps2 [-> [H1 [H2 [H3 H4]]]]]]].
        exists (p :: ps1), p0, ps2.
        split; [reflexivity|]. split; [assumption|]. split; [assumption|].
        split; [|assumption].
        constructor; [|assumption]. intros _ _. lia.
      * apply Nat.ltb_ge in Hlt.
        exists [], p, ps.
        split; [reflexivity|]. split; [assumption|]. split; [reflexivity|].
        split; [constructor|].
        apply Forall_forall. intros q Hq e'' Hq'.
        destruct (first_rejected_earliest _ Hfr) as [_ Hmin].
        specialize (Hmin _ _ Hq Hq'). lia.
    + intros H. inversion H; subst.
      exists [], p, ps.
      split; [reflexivity|]. split; [assumption|]. split; [reflexivity|].
      split; [constructor|].
      apply Forall_forall. intros q Hq e'' Hq'.
      exfalso. eapply first_rejected_exists; eauto.
Qed.

(** A [map] that meets a member on which the expression throws: the
    loads before it are issued, the map ends on what was thrown. *)
Lemma map_load_throws (l1 l2 : list elem) (c : elem) (e : error) :
  Forall (loadable g path) l1 ->
  throws_at_once g path c e ->
  forall log : list call,
    map_load g path (l1 ++ c :: l2) log =
    (log ++ batch_calls path l1, Fail e).
Proof.
  intros Hl1 Hc.
  induction Hl1 as [|c1 l1 [n [p [-> Hn]]] _ IH]; intros log.
  - cbn [app map_load]. unfold bind. simpl. rewrite app_nil_r.
    destruct c as [|n]; simpl in *; [now subst|].
    destruct (g n path) as [p| |e0] eqn:Hn; [tauto|now subst|now subst].
  - cbn [app map_load]. unfold bind at 1.
    unfold member_load. rewrite Hn.
    unfold bind. rewrite IH. simpl. now rewrite <- app_assoc.
Qed.

(** A turn, over one entity or over an array: the first member on which
    the expression throws decides. *)
Lemma step_throws (current : value) (l1 l2 : list elem) (c : elem)
      (e : error) (log : list call) :
  members current = l1 ++ c :: l2 ->
  Forall (loadable g path) l1 ->
  throws_at_once g path c e ->
  step g current path log = (log ++ batch_calls path l1, Fail e).
Proof.
  intros Hm Hl1 Hc. destruct current as [c0|l]; simpl in Hm.
  - destruct l1 as [|c1 l1].
    + simpl in Hm. inversion Hm; subst. simpl. rewrite app_nil_r.
      unfold bind. destruct c as [|n]; simpl in *; [now subst|].
      destruct (g n path) as [p| |e0]; [tauto|now subst|now subst].
    + exfalso. simpl in Hm. inversion Hm as [[E1 E2]].
      destruct l1; discriminate E2.
  - subst l. cbn [step]. unfold bind.
    now rewrite (@map_load_throws l1 l2 c e Hl1 Hc).
Qed.

(** A turn whose members all have the edge and that fails: every load
    was issued, and the error is the rejection that settles first. *)
Lemma step_rejects (current : value) (log log' : list call) (e : error) :
  Forall (loadable g path) (members current) ->
  step g current path log = (log', Fail e) ->
  log' = log ++ batch_calls path (members current) /\
  exists l1 c l2 t,
    members current = l1 ++ c :: l2 /\ rejected_at g path c t e /\
    (forall c' t' e', In c' l1 -> rejected_at g path c' t' e' -> t < t') /\
    (forall c' t' e', In c' l2 -> rejected_at g path c' t' e' -> t <= t').
Proof.
  intros Hl Hs. destruct current as [c|l]; simpl in Hl.
  - inversion Hl as [|? ? [n [p [-> Hn]]] _]; subst.
    simpl in Hs. unfold bind in Hs. rewrite Hn in Hs.
    unfold await in Hs. destruct (result p) as [v|e0] eqn:Hp;
      unfold ret, throw in Hs; inversion Hs; subst.
    split; [reflexivity|].
    exists [], (Entity n), [], (settles_at p). simpl. rewrite Hn.
    repeat split; auto; intros c' t' e' [].
  - destruct (@map_load_loadable l Hl log) as [ps [Hmap Hall]].
    cbn [step] in Hs. unfold bind in Hs. rewrite Hmap in Hs.
    unfold await_all in Hs.
    destruct (first_rejected ps) as [[t e1]|] eqn:Hfr;
      unfold ret, throw in Hs; inversion Hs; subst.
    split; [reflexivity|].
    destruct (first_rejected_position _ Hfr)
      as [ps1 [p [ps2 [-> [Hp [Ht [Hb Ha]]]]]]].
    apply Forall2_app_inv_r in Hall.
    destruct Hall as [l1 [l' [Hall1 [Hall2 ->]]]].
    inversion Hall2 as [|c ? l2 ? [n [-> Hn]] Hall3]; subst.
    exists l1, (Entity n), l2, (settles_at p). simpl. rewrite Hn.
    repeat split; auto.
    + intros c' t' e' Hin Hr.
      destruct (Forall2_In_l _ Hall1 Hin) as [q [Hq [n' [-> Hn']]]].
      simpl in Hr. rewrite Hn' in Hr. destruct Hr as [Hr <-].
      rewrite Forall_forall in Hb. eapply Hb; eauto.
    + intros c' t' e' Hin Hr.
      destruct (Forall2_In_l _ Hall3 Hin) as [q [Hq [n' [-> Hn']]]].
      simpl in Hr. rewrite Hn' in Hr. destruct Hr as [Hr <-].
      rewrite Forall_forall in Ha. eapply Ha; eauto.
Qed.

End BatchFacts.

Section ChainFacts.
Import Walker.
Variable g : graph.

Lemma resolve_singular_resolves (c c' : elem) (h : hop) :
  resolve_singular g c h = Some c' -> resolves_to g h c (Single c').
Proof.
  destruct c as [|n]; simpl; [discriminate|].
  destruct (g n h) as [p| |e0]; try discriminate.
  destruct (result p) as [[e|l]|e]; try discriminate.
  intros H. now inversion H.
Qed.

Lemma walk_chain (hops : list hop) :
  forall (c c' : elem) (log : list call),
    resolve_chain g c hops = Some c' ->
    snd (walk g (Single c) hops log) = Ok (Single c').
Proof.
  induction hops as [|h hops IH]; intros c c' log; cbn [resolve_chain walk].
  - intros H. inversion H. reflexivity.
  - destruct (resolve_singular g c h) as [c1|] eqn:Hc; [|discriminate].
    intros Hrest. apply resolve_singular_resolves in Hc.
    destruct (@step_Single_Ok g _ _ _ log Hc) as [n [_ Hstep]].
    unfold bind. rewrite Hstep. now apply IH.
Qed.

(** [undefined[path]] throws. *)
Lemma walk_Undefined (path : hop) (rest : list hop) (log : list call) :
  walk g (Single Undefined) (path :: rest) log = (log, Fail TypeError).
Proof. reflexivity. Qed.

(** From an entity, what a turn fulfils with is what the edge resolves
    to. *)
Lemma step_Single_inv (c : elem) (path : hop) (log log' : list call)
      (v : value) :
  step g (Single c) path log = (log', Ok v) -> resolves_to g path c v.
Proof.
  destruct c as [|n]; simpl; unfold bind; simpl; [discriminate|].
  destruct (g n path) as [p| |e0]; try discriminate.
  unfold await. destruct (result p); unfold ret, throw; intros H;
    inversion H; subst; reflexivity.
Qed.

End ChainFacts.

(** C6, as the code has it.  When the walk has reached frontier [cur]
    and the resolution of the next hop fails on a member of it, the whole
    walk fails, whatever hops follow, with no frontier returned and no
    load issued beyond those of the failing batch.  The error is that of
    one failed resolution of the batch, and which one is fixed: the
    first member, in frontier order, on which [c[path].load()] throws on
    the spot decides, the members after it not loaded; when no member
    throws, every load is issued and the error is the rejection that
    settles first (of two at one tick, the earlier in the frontier).  So
    it is that very error when no other member fails differently. *)
Theorem failure_propagates :
  forall (g : Walker.graph) (root cur : value) (pre post : list Walker.hop)
         (path : Walker.hop) (log : list Walker.call) (c : elem) (e : error),
    Walker.run (Walker.walk g root pre) = (log, Walker.Ok cur) ->
    In c (Walker.members cur) ->
    Walker.resolution_fails g path c e ->
    exists log' e',
      Walker.run (Walker.walk g root (pre ++ path :: post)) = (log', Walker.Fail e') /\
      (exists c', In c' (Walker.members cur) /\ Walker.resolution_fails g path c' e') /\
      ((forall c' e'', In c' (Walker.members cur) ->
                       Walker.resolution_fails g path c' e'' -> e'' = e) ->
       e' = e) /\
      (exists calls, log' = log ++ calls /\
                     Forall (Walker.in_batch cur path) calls) /\
      (forall (l1 l2 : list elem) (c0 : elem) (e0 : error),
          Walker.members cur = l1 ++ c0 :: l2 ->
          Forall (Walker.loadable g path) l1 ->
          Walker.throws_at_once g path c0 e0 ->
          e' = e0 /\ log' = log ++ Walker.batch_calls path l1) /\
      (Forall (Walker.loadable g path) (Walker.members cur) ->
       log' = log ++ Walker.batch_calls path (Walker.members cur) /\
       exists (l1 : list elem) (c0 : elem) (l2 : list elem) (t : nat),
         Walker.members cur = l1 ++ c0 :: l2 /\
         Walker.rejected_at g path c0 t e' /\
         (forall c' t' e'', In c' l1 ->
                            Walker.rejected_at g path c' t' e'' -> t < t') /\
         (forall c' t' e'', In c' l2 ->
                            Walker.rejected_at g path c' t' e'' -> t <= t')).
Proof.
  intros g root cur pre post path log c e Hpre Hin Hfail.
  destruct (@step_Fail_complete g cur path log c e Hin Hfail) as [log' [e' Hstep]].
  exists log', e'.
  pose proof (@step_Fail_sound g _ _ _ _ _ Hstep) as Hsound.
  pose proof (@step_log g _ _ _ _ _ Hstep) as Hlog.
  split; [|split; [|split; [|split; [|split]]]].
  - unfold Walker.run in *. rewrite walk_app, Hpre.
    cbn [Walker.walk]. unfold Walker.bind. now rewrite Hstep.
  - exact Hsound.
  - intros Huniq. destruct Hsound as [c' [Hc' Hf']]. eapply Huniq; eauto.
  - exact Hlog.
  - intros l1 l2 c0 e0 Hm Hl1 Ht.
    pose proof (@step_throws g path cur l1 l2 c0 e0 log Hm Hl1 Ht) as Hs.
    rewrite Hstep in Hs. inversion Hs. auto.
  - intros Hall. exact (@step_rejects g path cur log log' e' Hall Hstep).
Qed.

(** C6 at authors 1 and 2, both image loads rejected, that of author 2
    settling first: the walk over [authors, image, author] fails, and the
    theorem leaves no choice of the error but the rejection of author
    2's load. *)
Lemma failure_propagates_witness :
  exists log',
    Walker.run (Walker.walk Fixtures.g_two_rejections (Single (Entity 0))
                            (["authors"] ++ "image" :: ["author"])) =
    (log', Walker.Fail (Thrown "connection lost")).
Proof.
  destruct (@failure_propagates Fixtures.g_two_rejections (Single (Entity 0))
              (Array [Entity 1; Entity 2]) ["authors"] ["author"] "image"
              [(0, "authors")] (Entity 1) (Thrown "timeout"))
    as [log' [e' [Hrun [_ [_ [_ [_ Hfirst]]]]]]].
  - reflexivity.
  - simpl. auto.
  - reflexivity.
  - exists log'. eapply eq_trans; [exact Hrun|]. f_equal. f_equal.
    destruct Hfirst as [_ [l1 [c0 [l2 [t [Hm [Hr [Hb Ha]]]]]]]].
    { constructor; [|constructor; [|constructor]].
      - exists 1, (Fixtures.rejects 2 "timeout"). split; reflexivity.
      - exists 2, (Fixtures.rejects 1 "connection lost"). split; reflexivity. }
    simpl in Hm. destruct l1 as [|x l1].
    + simpl in Hm. inversion Hm; subst c0 l2.
      destruct Hr as [_ Ht].
      assert (Hle : t <= 1).
      { apply (Ha (Entity 2) 1 (Thrown "connection lost")).
        - simpl. auto.
        - split; reflexivity. }
      simpl in Ht. lia.
    + simpl in Hm. inversion Hm as [[Hx Hm']].
      destruct l1 as [|y l1].
      * simpl in Hm'. inversion Hm'; subst c0 l2.
        destruct Hr as [He _]. simpl in He. inversion He. reflexivity.
      * simpl in Hm'. inversion Hm' as [[Hy Hm'']].
        destruct l1; discriminate Hm''.
Defined.

(** C6 fails on the code: in one batch the image loads of authors 1
    and 2 are both rejected, with different reasons.  The walk fails with
    one of them only (here the one that settles first, author 2's), so
    the failed resolution on author 1 is not the error of the walk. *)
Lemma one_rejection_of_two_is_reported :
  Walker.resolution_fails Fixtures.g_two_rejections "image" (Entity 1)
                          (Thrown "timeout") /\
  Walker.resolution_fails Fixtures.g_two_rejections "image" (Entity 2)
                          (Thrown "connection lost") /\
  Walker.run (Walker.walk Fixtures.g_two_rejections (Single (Entity 0))
                          ["authors"; "image"]) =
  ([(0, "authors"); (1, "image"); (2, "image")],
   Walker.Fail (Thrown "connection lost")) /\
  Thrown "connection lost" <> Thrown "timeout".
Proof.
  split; [reflexivity|]. split; [reflexivity|]. split; [reflexivity|].
  discriminate.
Qed.

(** C7. When the edges [e1, ..., en] resolve one after the other from
    [a], each a singular edge on the entity the one before produced,
    ending in [c], the walk of that path from [a] returns the single
    [c]. *)
Theorem singular_chaining :
  forall (g : Walker.graph) (a : node) (hops : list Walker.hop) (c : elem),
    Walker.resolve_chain g (Entity a) hops = Some c ->
    snd (Walker.run (Walker.walk g (Single (Entity a)) hops)) =
    Walker.Ok (Single c).
Proof.
  intros g a hops c H. unfold Walker.run. now apply walk_chain.
Qed.

(** C7 at book 10, its author 1 and that author's publisher 0. *)
Lemma singular_chaining_witness :
  snd (Walker.run (Walker.walk Fixtures.g_publisher (Single (Entity 10))
                               ["author"; "publisher"])) =
  Walker.Ok (Single (Entity 0)).
Proof.
  apply (@singular_chaining Fixtures.g_publisher 10 ["author"; "publisher"]
           (Entity 0)).
  reflexivity.
Defined.

(** C9. Once the frontier is an array it stays one: whatever hops
    follow, the walk either fails or ends on an array, never on a single
    entity. *)
Theorem plural_frontier_is_monotone :
  forall (g : Walker.graph) (root : value) (pre post : list Walker.hop)
         (log : list Walker.call) (l : list elem),
    Walker.run (Walker.walk g root pre) = (log, Walker.Ok (Array l)) ->
    (exists log' l',
        Walker.run (Walker.walk g root (pre ++ post)) = (log', Walker.Ok (Array l'))) \/
    (exists log' e,
        Walker.run (Walker.walk g root (pre ++ post)) = (log', Walker.Fail e)).
Proof.
  intros g root pre post log l Hpre.
  unfold Walker.run in *. rewrite walk_app, Hpre.
  destruct (Walker.walk g (Array l) post log) as [log' [v|e]] eqn:Hpost.
  - left. apply walk_Array_shape in Hpost. destruct Hpost as [l' ->].
    now exists log', l'.
  - right. now exists log', e.
Qed.

(** C9 at publisher 0: an array after [authors], an array after the
    singular [image] of each author. *)
Lemma plural_frontier_is_monotone_witness :
  (exists log' l',
      Walker.run (Walker.walk Fixtures.g_images (Single (Entity 0))
                              (["authors"] ++ ["image"])) =
      (log', Walker.Ok (Array l'))) \/
  (exists log' e,
      Walker.run (Walker.walk Fixtures.g_images (Single (Entity 0))
                              (["authors"] ++ ["image"])) =
      (log', Walker.Fail e)).
Proof.
  apply (@plural_frontier_is_monotone Fixtures.g_images (Single (Entity 0))
           ["authors"] ["image"] [(0, "authors")] [Entity 1; Entity 2]).
  reflexivity.
Defined.

(** C10. From a frontier still a single entity: when the singular edge
    of a hop resolves to the absent value and a hop remains, the walk
    fails with the [TypeError] of dereferencing [undefined], right after
    that load.  And a walk from an entity that returns the absent value
    has a last hop whose edge resolved to it, on a single entity, every
    frontier before having been a single entity too. *)
Theorem absent_before_last_hop_fails :
  forall (g : Walker.graph) (a : node) (paths : list Walker.hop),
    (forall (pre rest : list Walker.hop) (path next : Walker.hop)
            (log : list Walker.call) (n : node),
        paths = pre ++ path :: next :: rest ->
        Walker.run (Walker.walk g (Single (Entity a)) pre) =
        (log, Walker.Ok (Single (Entity n))) ->
        Walker.resolves_to g path (Entity n) (Single Undefined) ->
        Walker.run (Walker.walk g (Single (Entity a)) paths) =
        (log ++ [(n, path)], Walker.Fail TypeError)) /\
    (forall log : list Walker.call,
        Walker.run (Walker.walk g (Single (Entity a)) paths) =
        (log, Walker.Ok (Single Undefined)) ->
        exists (pre : list Walker.hop) (last : Walker.hop) (m : node),
          paths = pre ++ [last] /\
          Walker.resolves_to g last (Entity m) (Single Undefined) /\
          (exists log0,
              Walker.run (Walker.walk g (Single (Entity a)) pre) =
              (log0, Walker.Ok (Single (Entity m)))) /\
          (forall p q : list Walker.hop,
              pre = p ++ q ->
              exists log1 c,
                Walker.run (Walker.walk g (Single (Entity a)) p) =
                (log1, Walker.Ok (Single (Entity c))))).
Proof.
  intros g a paths. unfold Walker.run. split.
  - intros pre rest path next log n -> Hpre Hres.
    rewrite walk_app, Hpre. cbn [Walker.walk]. unfold Walker.bind at 1.
    destruct (@step_Single_Ok g _ _ _ log Hres) as [n' [E ->]].
    inversion E; subst n'. reflexivity.
  - intros log Hrun.
    destruct (exists_last (l := paths)) as [pre [last ->]].
    { intros ->. discriminate Hrun. }
    rewrite walk_app in Hrun.
    destruct (Walker.walk g (Single (Entity a)) pre []) as [log0 [cur|e]] eqn:Hpre;
      [|discriminate].
    cbn [Walker.walk] in Hrun. unfold Walker.bind in Hrun.
    destruct (Walker.step g cur last log0) as [log1 [v|e]] eqn:Hstep;
      [|discriminate].
    unfold Walker.ret in Hrun. inversion Hrun; subst.
    destruct cur as [[|m]|l].
    + discriminate Hstep.
    + exists pre, last, m. split; [reflexivity|]. split.
      * eapply step_Single_inv. exact Hstep.
      * split; [now exists log0|].
        intros p q ->. rewrite walk_app in Hpre.
        destruct (Walker.walk g (Single (Entity a)) p []) as [log2 [v|e]] eqn:Hp;
          [|discriminate].
        destruct v as [[|c]|l].
        -- destruct q as [|h q].
           ++ discriminate Hpre.
           ++ rewrite walk_Undefined in Hpre. discriminate.
        -- now exists log2, c.
        -- apply walk_Array_shape in Hpre. destruct Hpre as [l' Hl']. discriminate.
    + apply step_Array_shape in Hstep. destruct Hstep as [l' [Hl' _]]. discriminate.
Qed.

(** C10 at book 10, which has no author: [author, publisher] fails on
    the second hop. *)
Lemma absent_before_last_hop_fails_witness :
  Walker.run (Walker.walk Fixtures.g_no_author (Single (Entity 10))
                          ["author"; "publisher"]) =
  ([] ++ [(10, "author")], Walker.Fail TypeError).
Proof.
  apply (proj1 (@absent_before_last_hop_fails Fixtures.g_no_author 10
                  ["author"; "publisher"])
               [] [] "author" "publisher" [] 10);
    reflexivity.
Defined.

(** ** Further properties of the walker *)

Section DedupFacts.
Import Walker.

Lemma remove_absent (x : elem) (l : list elem) :
  ~ In x l -> remove elem_eq_dec x l = l.
Proof. apply notin_remove. Qed.

(** An array without repetition is left as it is. *)
Lemma dedup_first_seen_NoDup_id (l : list elem) :
  NoDup l -> dedup_first_seen l = l.
Proof.
  induction 1 as [|x l Hx _ IH]; simpl; [reflexivity|].
  rewrite IH. now rewrite remove_absent.
Qed.

Lemma In_flat (vs : list value) (x : elem) :
  In x (flat vs) <-> exists v, In v vs /\ In x (members v).
Proof.
  induction vs as [|v vs IH]; simpl.
  - split; [tauto|]. intros [v [[] _]].
  - destruct v as [e|l]; simpl.
    + rewrite IH. split.
      * intros [->|[v [Hv Hx]]].
        -- exists (Single x). simpl. auto.
        -- exists v. auto.
      * intros [v [[<-|Hv] Hx]].
        -- simpl in Hx. destruct Hx as [->|[]]. now left.
        -- right. exists v. auto.
    + rewrite in_app_iff, IH. split.
      * intros [Hx|[v [Hv Hx]]].
        -- exists (Array l). simpl. auto.
        -- exists v. auto.
      * intros [v [[<-|Hv] Hx]].
        -- now left.
        -- right. exists v. auto.
Qed.

(** [flat] is the members of each value, one value after the other. *)
Lemma flat_members (vs : list value) : flat vs = List.concat (map members vs).
Proof.
  induction vs as [|[e|l] vs IH]; simpl; [reflexivity| |]; now rewrite IH.
Qed.

End DedupFacts.

(** X1. An empty array frontier is absorbing: whatever hops follow, no
    load is issued, nothing fails, and the walk ends on the empty
    array. *)
Theorem empty_frontier_stays_empty :
  forall (g : Walker.graph) (paths : list Walker.hop) (log : list Walker.call),
    Walker.walk g (Array []) paths log = (log, Walker.Ok (Array [])).
Proof.
  intros g paths. induction paths as [|h paths IH]; intros log.
  - reflexivity.
  - cbn [Walker.walk]. unfold Walker.bind. simpl. apply IH.
Qed.

(** X2. In a turn over an array, the first member on which
    [c[path].load()] throws on the spot makes the turn fail with what was
    thrown: [TypeError] for [undefined] and for a property without
    [load], the error of the property read or of the call otherwise.  The
    loads of the members before it have been issued and what they settle
    to is dropped; the members after it are not loaded. *)
Theorem unloadable_member_throws :
  forall (g : Walker.graph) (path : Walker.hop) (l1 l2 : list elem) (c : elem)
         (e : error) (log : list Walker.call),
    Forall (Walker.loadable g path) l1 ->
    Walker.throws_at_once g path c e ->
    Walker.step g (Array (l1 ++ c :: l2)) path log =
    (log ++ Walker.batch_calls path l1, Walker.Fail e).
Proof.
  intros g path l1 l2 c e log Hl1 Hc.
  exact (@step_throws g path (Array (l1 ++ c :: l2)) l1 l2 c e log
           eq_refl Hl1 Hc).
Qed.

(** X2 at authors 2 and 1 and [undefined]: the load of author 2's image
    is issued (and will be rejected), reading the image of author 1
    throws, and the turn fails with what the read threw. *)
Lemma unloadable_member_throws_witness :
  Walker.step Fixtures.g_throwing_read
              (Array ([Entity 2] ++ Entity 1 :: [Undefined])) "image" [] =
  ([(2, "image")], Walker.Fail (Thrown "Entity has no id yet")).
Proof.
  apply (@unloadable_member_throws Fixtures.g_throwing_read "image"
           [Entity 2] [Undefined] (Entity 1) (Thrown "Entity has no id yet") []).
  - constructor; [|constructor].
    exists 2, (Fixtures.rejects 1 "fetch failed"). split; reflexivity.
  - reflexivity.
Defined.

(** X3. An array frontier that holds [undefined] fails any further hop,
    while the batch is being issued: with the error thrown on the spot on
    one of its members, which is [TypeError] unless reading the property
    on an entity of the frontier throws an error of its own. *)
Theorem undefined_in_frontier_fails_next_hop :
  forall (g : Walker.graph) (l : list elem) (path : Walker.hop)
         (rest : list Walker.hop) (log : list Walker.call),
    In Undefined l ->
    exists e,
      snd (Walker.walk g (Array l) (path :: rest) log) = Walker.Fail e /\
      (exists c, In c l /\ Walker.throws_at_once g path c e) /\
      ((forall n e', In (Entity n) l -> g n path <> Walker.Raises e') ->
       e = TypeError).
Proof.
  intros g l path rest log Hin.
  cbn [Walker.walk Walker.step]. unfold Walker.bind.
  destruct (Walker.map_load g path l log) as [log1 [ps|e]] eqn:Hl;
    apply map_load_spec in Hl; destruct Hl as [_ Hr].
  - exfalso. destruct (Forall2_In_l _ Hr Hin) as [p [_ [n [E _]]]].
    discriminate E.
  - exists e. split; [reflexivity|]. split; [exact Hr|].
    intros Hno. destruct Hr as [c [Hc Ht]].
    destruct c as [|n]; simpl in Ht; [assumption|].
    destruct (g n path) as [p| |e0] eqn:Hn; [tauto|assumption|].
    exfalso. apply (Hno n e0 Hc). now subst.
Qed.

(** X3 at the frontier left by authors 1 and 2, the second without
    image: no member's read throws an error of its own, the next hop
    fails with [TypeError]. *)
Lemma undefined_in_frontier_fails_next_hop_witness :
  snd (Walker.walk Fixtures.g_no_image (Array [Entity 3; Undefined])
                   ("author" :: []) []) = Walker.Fail TypeError.
Proof.
  destruct (@undefined_in_frontier_fails_next_hop Fixtures.g_no_image
              [Entity 3; Undefined] "author" [] [])
    as [e [Hrun [_ Htype]]].
  - simpl. auto.
  - eapply eq_trans; [exact Hrun|]. f_equal. apply Htype.
    intros n e' [E|[E|[]]]; inversion E; subst. discriminate.
Defined.


Lemma step_loadable_log (g : Walker.graph) (l : list elem) (path : Walker.hop)
      (log : list Walker.call) :
  Forall (Walker.loadable g path) l ->
  fst (Walker.step g (Array l) path log) = log ++ Walker.batch_calls path l.
Proof.
  intros Hl.
  destruct (@map_load_loadable g path l Hl log) as [ps [Hmap _]].
  cbn [Walker.step]. unfold Walker.bind. rewrite Hmap.
  unfold Walker.await_all.
  destruct (Walker.first_rejected ps) as [[t e]|]; reflexivity.
Qed.

(** The case of a member not yet saved: reading [idOrFail] on author 1
    throws before [undefined] is reached, and the hop fails with that
    error. *)
Example new_entity_read_throws_first :
  Walker.walk Fixtures.g_new_author (Array [Entity 1; Undefined])
              ["idOrFail"] [] =
  ([], Walker.Fail (Thrown "Entity has no id yet")).
Proof. reflexivity. Qed.

(** X4. When every member of an array frontier has the property, the
    turn issues the load of every member, in frontier order, a member
    listed twice loaded twice: a rejection does not keep the other loads
    of its batch from being issued, and the turn fails exactly when one
    of them is rejected. *)
Theorem batch_issues_every_load :
  forall (g : Walker.graph) (l : list elem) (path : Walker.hop)
         (log : list Walker.call),
    Forall (Walker.loadable g path) l ->
    fst (Walker.step g (Array l) path log) = log ++ Walker.batch_calls path l /\
    ((exists e, snd (Walker.step g (Array l) path log) = Walker.Fail e) <->
     (exists c e, In c l /\ Walker.resolution_fails g path c e)).
Proof.
  intros g l path log Hl. split; [now apply step_loadable_log|].
  split.
  - intros [e He].
    destruct (Walker.step g (Array l) path log) as [log' r] eqn:Hs.
    simpl in He. subst r.
    destruct (@step_Fail_sound g _ _ _ _ _ Hs) as [c [Hc Hf]].
    exists c, e. auto.
  - intros [c [e [Hc Hf]]].
    destruct (@step_Fail_complete g (Array l) path log c e Hc Hf)
      as [log' [e' Hs]].
    exists e'. now rewrite Hs.
Qed.

(** X4 at authors 1 and 2, both image loads rejected: both issued. *)
Lemma batch_issues_every_load_witness :
  fst (Walker.step Fixtures.g_two_rejections (Array [Entity 1; Entity 2])
                   "image" [(0, "authors")]) =
  [(0, "authors")] ++ Walker.batch_calls "image" [Entity 1; Entity 2].
Proof.
  apply (@batch_issues_every_load Fixtures.g_two_rejections
           [Entity 1; Entity 2] "image" [(0, "authors")]).
  constructor; [|constructor; [|constructor]].
  - exists 1, (Fixtures.rejects 2 "timeout"). split; reflexivity.
  - exists 2, (Fixtures.rejects 1 "connection lost"). split; reflexivity.
Defined.

(** X5. When the members of an array frontier all resolve and the
    elements they resolve to, taken member after member and within a
    member in the order of its collection, show no repetition, the turn
    leaves exactly that sequence, after one load per member in frontier
    order. *)
Theorem flattening_keeps_order :
  forall (g : Walker.graph) (l : list elem) (vs : list value)
         (path : Walker.hop) (log : list Walker.call),
    Forall2 (Walker.resolves_to g path) l vs ->
    NoDup (List.concat (map Walker.members vs)) ->
    Walker.step g (Array l) path log =
    (log ++ Walker.batch_calls path l,
     Walker.Ok (Array (List.concat (map Walker.members vs)))).
Proof.
  intros g l vs path log Hres Hnd.
  pose proof (@step_loadable_log g l path log
                (@Forall2_resolves_loadable g path l vs Hres)) as Hlog.
  destruct (@step_Array_Ok g l vs path log Hres) as [calls Hstep].
  rewrite Hstep in *. simpl in Hlog. rewrite Hlog.
  rewrite flat_members in *.
  now rewrite dedup_first_seen_NoDup_id.
Qed.

(** X5 at authors 1 and 2 and their books 11, 12 and 13. *)
Lemma flattening_keeps_order_witness :
  Walker.step Fixtures.g_books (Array [Entity 1; Entity 2]) "books"
              [(0, "authors")] =
  ([(0, "authors"); (1, "books"); (2, "books")],
   Walker.Ok (Array [Entity 11; Entity 12; Entity 13])).
Proof.
  apply (@flattening_keeps_order Fixtures.g_books [Entity 1; Entity 2]
           [Array [Entity 11; Entity 12]; Array [Entity 13]] "books"
           [(0, "authors")]).
  - constructor; [reflexivity|]. constructor; [reflexivity|]. constructor.
  - simpl. repeat constructor; simpl; intros H;
      repeat (destruct H as [H|H]; [discriminate H|]); exact H.
Defined.

(** X6. When [Promise.all] over the loads of a batch is rejected, the
    error is that of a rejected load that no other rejected load of the
    batch settles before, and awaiting issues no load. *)
Theorem earliest_rejection_is_reported :
  forall (ps : list Walker.promise) (log log' : list Walker.call) (e : error),
    Walker.await_all ps log = (log', Walker.Fail e) ->
    log' = log /\
    exists p, In p ps /\ Walker.result p = Walker.Rejected e /\
              forall q e', In q ps -> Walker.result q = Walker.Rejected e' ->
                           Walker.settles_at p <= Walker.settles_at q.
Proof.
  intros ps log log' e. unfold Walker.await_all.
  destruct (Walker.first_rejected ps) as [[t e0]|] eqn:Hfr;
    unfold Walker.throw, Walker.ret; intros H; inversion H; subst.
  split; [reflexivity|].
  destruct (first_rejected_earliest _ Hfr) as [[p [Hp1 [Hp2 Hp3]]] Hmin].
  exists p. repeat split; auto.
  intros q e' Hq1 Hq2. rewrite Hp3. eauto.
Qed.

(** X6 at two rejected loads, the second settling first. *)
Lemma earliest_rejection_is_reported_witness :
  [(1, "image")] = [(1, "image")] /\
  exists p, In p [Fixtures.rejects 2 "timeout"; Fixtures.rejects 1 "connection lost"] /\
            Walker.result p = Walker.Rejected (Thrown "connection lost") /\
            forall q e',
              In q [Fixtures.rejects 2 "timeout"; Fixtures.rejects 1 "connection lost"] ->
              Walker.result q = Walker.Rejected e' ->
              Walker.settles_at p <= Walker.settles_at q.
Proof.
  apply (@earliest_rejection_is_reported
           [Fixtures.rejects 2 "timeout"; Fixtures.rejects 1 "connection lost"]
           [(1, "image")] [(1, "image")] (Thrown "connection lost")).
  reflexivity.
Defined.

Section LogFacts.
Import Walker.
Variable g : graph.

(** The walk only adds to the log, and only loads of hops of its path. *)
Lemma walk_log (paths : list hop) :
  forall (current : value) (log : list call),
  exists calls,
    fst (walk g current paths log) = log ++ calls /\
    Forall (fun c => In (snd c) paths) calls.
Proof.
  induction paths as [|h paths IH]; intros current log.
  - exists []. simpl. now rewrite app_nil_r.
  - cbn [walk]. unfold bind.
    destruct (step g current h log) as [log1 [v|e]] eqn:Hs;
      destruct (step_log _ _ _ _ Hs) as [calls [-> Hcalls]].
    + destruct (IH v (log ++ calls)) as [calls' [Hw Hcalls']].
      exists (calls ++ calls'). rewrite Hw, <- app_assoc. split; [reflexivity|].
      apply Forall_app. split.
      * eapply Forall_impl; [|exact Hcalls]. intros c [Hc _]. left. auto.
      * eapply Forall_impl; [|exact Hcalls']. intros c Hc. right. exact Hc.
    + exists calls. split; [reflexivity|].
      eapply Forall_impl; [|exact Hcalls]. intros c [Hc _]. left. auto.
Qed.

(** What a successful turn leaves is what the edge resolves to on the
    members. *)
Lemma step_members (current : value) (path : hop) (log log' : list call)
      (v : value) :
  step g current path log = (log', Ok v) ->
  forall x, In x (members v) <->
            exists c w, In c (members current) /\ resolves_to g path c w /\
                        In x (members w).
Proof.
  destruct current as [c|l]; intros Hs x.
  - apply step_Single_inv in Hs. simpl. split.
    + intros Hx. exists c, v. auto.
    + intros [c' [w [[<-|[]] [Hw Hx]]]].
      destruct c as [|n]; simpl in *; [tauto|].
      destruct (g n path); try tauto. congruence.
  - apply step_Array_inv in Hs. destruct Hs as [vs [Hres ->]].
    simpl. rewrite dedup_first_seen_In, In_flat. split.
    + intros [w [Hw Hx]].
      destruct (Forall2_In_r _ Hres Hw) as [c [Hc Hcw]].
      exists c, w. auto.
    + intros [c [w [Hc [Hcw Hx]]]].
      destruct (Forall2_In_l _ Hres Hc) as [w' [Hw' Hcw']].
      exists w'. split; [assumption|].
      destruct c as [|n]; simpl in *; [tauto|].
      destruct (g n path); try tauto. congruence.
Qed.

End LogFacts.

(** X7. The walk loads nothing but the recorded hops: every load it
    issues, whether it ends well or not, is a load of a property named in
    its path, and the loads issued before it are left as they were. *)
Theorem only_path_hops_are_loaded :
  forall (g : Walker.graph) (current : value) (paths : list Walker.hop)
         (log : list Walker.call),
  exists calls,
    fst (Walker.walk g current paths log) = log ++ calls /\
    Forall (fun c => In (snd c) paths) calls.
Proof. intros g current paths log. apply walk_log. Qed.

(** X8. A walk that ends well ends on exactly what is reached from the
    starting frontier along the path: every element of the result is
    reached through the edges of the path, in their order, and every
    element so reached is in the result. *)
Theorem result_is_what_is_reached :
  forall (g : Walker.graph) (paths : list Walker.hop) (current v : value)
         (log log' : list Walker.call),
    Walker.walk g current paths log = (log', Walker.Ok v) ->
    forall x, In x (Walker.members v) <->
              exists c, In c (Walker.members current) /\ Walker.reach g c paths x.
Proof.
  intros g paths. induction paths as [|h paths IH]; intros current v log log'.
  - simpl. unfold Walker.ret. intros H x. inversion H; subst. split.
    + intros Hx. exists x. auto.
    + intros [c [Hc ->]]. exact Hc.
  - cbn [Walker.walk]. unfold Walker.bind.
    destruct (Walker.step g current h log) as [log1 [v1|e]] eqn:Hs;
      [|discriminate].
    intros Hw x. rewrite (IH _ _ _ _ Hw x). split.
    + intros [c1 [Hc1 Hreach]].
      apply (@step_members g _ _ _ _ _ Hs) in Hc1.
      destruct Hc1 as [c [w [Hc [Hcw Hc1]]]].
      exists c. split; [assumption|]. simpl. exists w, c1. auto.
    + intros [c [Hc [w [c1 [Hcw [Hc1 Hreach]]]]]].
      exists c1. split; [|assumption].
      apply (@step_members g _ _ _ _ _ Hs). exists c, w. auto.
Qed.

(** X8 at publisher 0: image 4 is in the result of [authors, image]
    because it is reached through author 2. *)
Lemma result_is_what_is_reached_witness :
  In (Entity 4) (Walker.members (Array [Entity 3; Entity 4])) <->
  exists c, In c (Walker.members (Single (Entity 0))) /\
            Walker.reach Fixtures.g_images c ["authors"; "image"] (Entity 4).
Proof.
  apply (@result_is_what_is_reached Fixtures.g_images ["authors"; "image"]
           (Single (Entity 0)) (Array [Entity 3; Entity 4])
           [] [(0, "authors"); (1, "image"); (2, "image")]).
  reflexivity.
Defined.

(** X9. Loads compose: when [load] over the chain [hs1] ends on a single
    entity [m], [load] over the longer chain [hs1 ++ hs2] is [load] over
    [hs2] from [m], started where the first one stopped: same loads, same
    result, same failure. *)
Theorem load_composes :
  forall (R1 R2 R : Type) (r1 : R1) (r2 : R2) (r : R)
         (g : Walker.graph) (this m : node) (hs1 hs2 : list string)
         (log : list Walker.call),
    Walker.run (Walker.load g this
                  (Recorder.chain_then (map Recorder.KString hs1) r1)) =
    (log, Walker.Ok (Single (Entity m))) ->
    Walker.run (Walker.load g this
                  (Recorder.chain_then (map Recorder.KString (hs1 ++ hs2)) r)) =
    Walker.load g m (Recorder.chain_then (map Recorder.KString hs2) r2) log.
Proof.
  intros R1 R2 R r1 r2 r g this m hs1 hs2 log.
  unfold Walker.run, Walker.load.
  rewrite !record_chain_then, !String_KString.
  intros H. now rewrite walk_app, H.
Qed.

(** X9 at book 10: [b => b.author.publisher] is [b => b.author] and then
    [a => a.publisher] from author 1. *)
Lemma load_composes_witness :
  Walker.run (Walker.load Fixtures.g_publisher 10
                (Recorder.chain_then
                   (map Recorder.KString (["author"] ++ ["publisher"])) tt)) =
  Walker.load Fixtures.g_publisher 1
              (Recorder.chain_then (map Recorder.KString ["publisher"]) tt)
              [(10, "author")].
Proof.
  apply (@load_composes unit unit unit tt tt tt Fixtures.g_publisher 10 1
           ["author"] ["publisher"] [(10, "author")]).
  reflexivity.
Defined.

(** X10. A walk from an entity that ends well has issued no load only
    when its path is empty, and then it returns that entity; with a path
    that is not empty its first load is the load of the first hop on that
    entity. *)
Theorem first_load_is_on_the_root :
  forall (g : Walker.graph) (a : node) (paths : list Walker.hop)
         (log : list Walker.call) (v : value),
    Walker.run (Walker.walk g (Single (Entity a)) paths) = (log, Walker.Ok v) ->
    match paths with
    | [] => log = [] /\ v = Single (Entity a)
    | h :: _ => exists calls, log = (a, h) :: calls
    end.
Proof.
  intros g a paths log v. unfold Walker.run.
  destruct paths as [|h rest].
  - simpl. unfold Walker.ret. intros H. inversion H. auto.
  - cbn [Walker.walk]. unfold Walker.bind.
    destruct (Walker.step g (Single (Entity a)) h []) as [log1 [v1|e]] eqn:Hs;
      [|discriminate].
    pose proof (@step_Single_inv g _ _ _ _ _ Hs) as Hres.
    destruct (@step_Single_Ok g _ _ _ [] Hres) as [n [E Hs']].
    inversion E; subst n. rewrite Hs in Hs'. inversion Hs'; subst.
    intros Hw. destruct (@walk_log g rest v1 ([] ++ [(a, h)])) as [calls [Hl _]].
    cbn [app] in Hl, Hw. rewrite Hw in Hl. simpl in Hl. exists calls. exact Hl.
Qed.

(** X10 at book 10 and [author, publisher]. *)
Lemma first_load_is_on_the_root_witness :
  exists calls, [(10, "author"); (1, "publisher")] = (10, "author") :: calls.
Proof.
  apply (@first_load_is_on_the_root Fixtures.g_publisher 10
           ["author"; "publisher"] [(10, "author"); (1, "publisher")]
           (Single (Entity 0))).
  reflexivity.
Defined.

(** ** Properties of the entity state *)

(** X11. [isPendingFlush] is false exactly for an entity that has an id,
    no key in [originalData] and a [deleted] that is not ["pending"]; so
    an entity pending delete is both deleted and pending flush, while one
    whose [deleted] holds anything else is deleted without being pending
    flush on that account. *)
Theorem pending_flush_characterised :
  forall e : EntityState.BaseEntity,
    (EntityState.isPendingFlush e = false <->
     EntityState.id e <> None /\
     EntityState.originalData (EntityState.__orm e) = [] /\
     EntityState.deleted (EntityState.__orm e) <> Some "pending") /\
    (EntityState.isPendingDelete e = true ->
     EntityState.isDeletedEntity e = true /\ EntityState.isPendingFlush e = true) /\
    (EntityState.isDeletedEntity e = true ->
     EntityState.isPendingDelete e = false ->
     EntityState.isPendingFlush e =
     EntityState.isNewEntity e || EntityState.isDirtyEntity e).
Proof.
  intros [i [t d o del]].
  unfold EntityState.isPendingFlush, EntityState.isNewEntity,
    EntityState.isDirtyEntity, EntityState.isPendingDelete,
    EntityState.isDeletedEntity; simpl.
  split; [|split].
  - destruct i as [i|]; simpl.
    + destruct o as [|kv o]; simpl.
      * destruct del as [s|]; simpl.
        -- split.
           ++ intros H. repeat split; try discriminate.
              intros E. inversion E; subst. discriminate H.
           ++ intros [_ [_ H]]. apply String.eqb_neq. congruence.
        -- split; [intros _; repeat split; discriminate|reflexivity].
      * split; [discriminate|]. intros [_ [H _]]. discriminate H.
    + split; [discriminate|]. intros [H _]. congruence.
  - destruct del as [s|]; [|discriminate].
    intros H. rewrite H. split; [reflexivity|]. now rewrite !orb_true_r.
  - intros _ H. rewrite H. now rewrite orb_false_r.
Qed.

(** X11 at a saved, clean entity whose delete went through. *)
Lemma pending_flush_characterised_witness :
  EntityState.isPendingFlush
    (EntityState.mkEntity (Some "a:1")
       (EntityState.mkOrm "Author" [("id", EntityState.FString "a:1")] []
                          (Some "deleted"))) = false.
Proof.
  apply (proj1 (pending_flush_characterised _)).
  simpl. repeat split; discriminate.
Defined.

Lemma toJSON_entry_shallow (h : EntityState.heap) (entry : string * EntityState.field) :
  EntityState.isEntity (snd (EntityState.toJSON_entry h entry)) = false.
Proof. destruct entry as [k [| |b|l|s|n]]; reflexivity. Qed.

Lemma toJSON_entry_fixed (h : EntityState.heap) (entry : string * EntityState.field) :
  EntityState.isEntity (snd entry) = false ->
  EntityState.toJSON_entry h entry = entry.
Proof. destruct entry as [k [| |b|l|s|n]]; simpl; congruence. Qed.

(** X12. [toJSON] stays shallow: it has the keys of [data], in their
    order; a value that is not an entity is left as it is, an entity is
    replaced by its [toString] string; so no entity is left in the result,
    and converting the result once more changes nothing. *)
Theorem toJSON_stays_shallow :
  forall (h : EntityState.heap) (e : EntityState.BaseEntity),
    let d := EntityState.data (EntityState.__orm e) in
    map fst (EntityState.toJSON h e) = map fst d /\
    Forall (fun entry => EntityState.isEntity (snd entry) = false)
           (EntityState.toJSON h e) /\
    (forall k v, In (k, v) d -> EntityState.isEntity v = false ->
                 In (k, v) (EntityState.toJSON h e)) /\
    (forall k n, In (k, EntityState.FEntity n) d ->
                 In (k, EntityState.FString (EntityState.toString (h n)))
                    (EntityState.toJSON h e)) /\
    (forall h', map (EntityState.toJSON_entry h') (EntityState.toJSON h e) =
                EntityState.toJSON h e).
Proof.
  intros h e d. unfold EntityState.toJSON. fold d. repeat split.
  - rewrite map_map. apply map_ext. intros [k v]. reflexivity.
  - apply Forall_forall. intros entry Hin. apply in_map_iff in Hin.
    destruct Hin as [entry0 [<- _]]. apply toJSON_entry_shallow.
  - intros k v Hin Hv. apply in_map_iff. exists (k, v). split; [|assumption].
    now apply toJSON_entry_fixed.
  - intros k n Hin. apply in_map_iff. exists (k, EntityState.FEntity n).
    split; [reflexivity|assumption].
  - intros h'. rewrite map_map. apply map_ext. intros entry.
    apply toJSON_entry_fixed. apply toJSON_entry_shallow.
Qed.

(** ** Properties of [allImages] *)

Section AllImagesFacts.
Import AllImages.
Variable sortOrder : ImageType -> Z.

Lemma filter_defined_app (l1 l2 : list (option Image)) :
  filter_defined (l1 ++ l2) = filter_defined l1 ++ filter_defined l2.
Proof.
  induction l1 as [|[i|] l1 IH]; simpl; [reflexivity| |assumption].
  now rewrite IH.
Qed.

Lemma filter_defined_push (l : list (option Image)) (o : option Image) :
  filter_defined (push l o) = filter_defined l ++ defined o.
Proof.
  unfold push. rewrite filter_defined_app. destruct o; reflexivity.
Qed.

Lemma filter_defined_Some (l : list Image) : filter_defined (map Some l) = l.
Proof. induction l as [|i l IH]; simpl; [reflexivity|now rewrite IH]. Qed.

Lemma filter_defined_books (bs : list Book) :
  forall acc : list (option Image),
    filter_defined (fold_left (fun imgs book => push imgs (book_image book)) bs acc) =
    filter_defined acc ++ flat_map (fun b => defined (book_image b)) bs.
Proof.
  induction bs as [|b bs IH]; intros acc; simpl.
  - now rewrite app_nil_r.
  - rewrite IH, filter_defined_push, <- app_assoc. reflexivity.
Qed.

Lemma filter_defined_authors (l : list Author) :
  forall acc : list (option Image),
    filter_defined (fold_left reducer l acc) =
    filter_defined acc ++ flat_map images_of_author l.
Proof.
  induction l as [|a l IH]; intros acc; simpl.
  - now rewrite app_nil_r.
  - rewrite IH. unfold reducer at 1.
    rewrite filter_defined_books, filter_defined_push.
    unfold images_of_author. now rewrite <- !app_assoc.
Qed.

(** What is sorted is the publisher's images followed by those of its
    authors and their books, the unset ones left out. *)
Lemma filter_defined_collected (p : Publisher) :
  filter_defined (collected p) = all_images_spec p.
Proof.
  unfold collected, all_images_spec.
  now rewrite filter_defined_authors, filter_defined_Some.
Qed.

Lemma place_Permutation (cmp : Image -> Image -> Z) (x : Image) (l : list Image) :
  Permutation (place cmp x l) (x :: l).
Proof.
  induction l as [|y l IH]; simpl; [reflexivity|].
  destruct (Z.leb (cmp x y) 0); [reflexivity|].
  rewrite IH. apply perm_swap.
Qed.

Lemma sort_Permutation (cmp : Image -> Image -> Z) (l : list Image) :
  Permutation (sort cmp l) l.
Proof.
  induction l as [|x l IH]; simpl; [reflexivity|].
  rewrite place_Permutation. now constructor.
Qed.

Lemma place_sorted (x : Image) (l : list Image) :
  StronglySorted (in_order sortOrder) l ->
  StronglySorted (in_order sortOrder) (place (compare sortOrder) x l).
Proof.
  induction 1 as [|y l Hl IH Hy]; simpl.
  - constructor; constructor.
  - unfold compare at 1. destruct (Z.leb_spec (sortOrder (type x) - sortOrder (type y)) 0).
    + constructor; [constructor; assumption|].
      constructor; [unfold in_order; lia|].
      eapply Forall_impl; [|exact Hy]. unfold in_order. intros a Ha. lia.
    + constructor; [assumption|].
      eapply Permutation_Forall; [symmetry; apply place_Permutation|].
      constructor; [unfold in_order; lia|assumption].
Qed.

Lemma sort_sorted (l : list Image) :
  StronglySorted (in_order sortOrder) (sort (compare sortOrder) l).
Proof.
  induction l as [|x l IH]; simpl; [constructor|now apply place_sorted].
Qed.

Lemma place_stable (k : Z) (x : Image) (l : list Image) :
  filter (of_order sortOrder k) (place (compare sortOrder) x l) = filter (of_order sortOrder k) (x :: l).
Proof.
  induction l as [|y l IH]; simpl; [reflexivity|].
  unfold compare at 1.
  destruct (Z.leb_spec (sortOrder (type x) - sortOrder (type y)) 0);
    [reflexivity|].
  simpl. rewrite IH. simpl. unfold of_order.
  destruct (Z.eqb_spec (sortOrder (type x)) k);
    destruct (Z.eqb_spec (sortOrder (type y)) k); try reflexivity.
  lia.
Qed.

Lemma sort_stable (k : Z) (l : list Image) :
  filter (of_order sortOrder k) (sort (compare sortOrder) l) = filter (of_order sortOrder k) l.
Proof.
  induction l as [|x l IH]; simpl; [reflexivity|].
  rewrite place_stable. simpl. now rewrite IH.
Qed.

End AllImagesFacts.

(** X13. [allImages.get] holds the images under the publisher and
    nothing else: its own, and for each author the author's image and the
    image of each book, each as often as it is listed, the unset ones
    ([undefined]) left out. *)
Theorem allImages_get_holds_the_set_images :
  forall (sortOrder : AllImages.ImageType -> Z) (p : AllImages.Publisher),
    Permutation (AllImages.get sortOrder p) (AllImages.all_images_spec p).
Proof.
  intros sortOrder p. unfold AllImages.get.
  rewrite filter_defined_collected. apply sort_Permutation.
Qed.

(** X14. [allImages.get] is in ascending sort order of the image types:
    every image is followed only by images whose type's [sortOrder] is
    not smaller. *)
Theorem allImages_get_is_sorted :
  forall (sortOrder : AllImages.ImageType -> Z) (p : AllImages.Publisher),
    StronglySorted (AllImages.in_order sortOrder) (AllImages.get sortOrder p).
Proof.
  intros sortOrder p. unfold AllImages.get. apply sort_sorted.
Qed.

(** X15. Among images of one sort order, [allImages.get] keeps the order
    of collection: the publisher's own images first, then author by
    author the author's image and the images of the books. *)
Theorem allImages_get_is_stable :
  forall (sortOrder : AllImages.ImageType -> Z) (p : AllImages.Publisher) (k : Z),
    filter (AllImages.of_order sortOrder k) (AllImages.get sortOrder p) =
    filter (AllImages.of_order sortOrder k) (AllImages.all_images_spec p).
Proof.
  intros sortOrder p k. unfold AllImages.get.
  rewrite sort_stable. now rewrite filter_defined_collected.
Qed.

(** An example of [allImages.get]: the two book images, in the order
    their authors list them, then the author's, then the publisher's. *)
Example allImages_get_sample :
  map AllImages.image_id
      (AllImages.get AllImages.sample_order AllImages.sample_publisher) =
  [3; 4; 2; 1].
Proof. reflexivity. Qed.

(** ** Invariants of the whole walk *)

(** X16. A walk that goes through at least one turn over an array and
    ends well ends on an array without repetition. *)
Theorem plural_walk_has_no_repetition :
  forall (g : Walker.graph) (l : list elem) (paths : list Walker.hop)
         (log log' : list Walker.call) (v : value),
    paths <> [] ->
    Walker.walk g (Array l) paths log = (log', Walker.Ok v) ->
    exists l', v = Array l' /\ NoDup l'.
Proof.
  intros g l paths. revert l.
  induction paths as [|h paths IH]; intros l log log' v Hne; [congruence|].
  cbn [Walker.walk]. unfold Walker.bind.
  destruct (Walker.step g (Array l) h log) as [log1 [v1|e]] eqn:Hs;
    [|discriminate].
  destruct (@step_Array_shape g _ _ _ _ _ Hs) as [l1 [-> Hnd]].
  destruct paths as [|h' paths].
  - simpl. unfold Walker.ret. intros H. inversion H; subst. now exists l1.
  - apply IH. discriminate.
Qed.

(** X16 at authors 1 and 2 and their common publisher. *)
Lemma plural_walk_has_no_repetition_witness :
  exists l', Array [Entity 0] = Array l' /\ NoDup l'.
Proof.
  apply (@plural_walk_has_no_repetition Fixtures.g_publisher
           [Entity 1; Entity 2] ["publisher"] []
           [(1, "publisher"); (2, "publisher")] (Array [Entity 0])).
  - discriminate.
  - reflexivity.
Defined.

Section TimingFacts.
Import Walker.
Variables g g' : graph.
Hypothesis Hsame : same_results g g'.

Lemma same_results_inv (n : node) (h : hop) :
  match g n h, g' n h with
  | Loads p, Loads p' => result p = result p'
  | Missing, Missing => True
  | Raises e, Raises e' => e = e'
  | _, _ => False
  end.
Proof. exact (Hsame n h). Qed.

Lemma map_load_same (path : hop) (l : list elem) :
  forall log : list call,
  exists log1,
    (exists ps ps',
        map_load g path l log = (log1, Ok ps) /\
        map_load g' path l log = (log1, Ok ps') /\
        Forall2 (fun p p' => result p = result p') ps ps') \/
    (exists e,
        map_load g path l log = (log1, Fail e) /\
        map_load g' path l log = (log1, Fail e)).
Proof.
  induction l as [|c l IH]; intros log; cbn [map_load].
  - exists log. left. exists [], []. repeat split. constructor.
  - unfold bind at 1 3. destruct c as [|n]; simpl.
    + exists log. right. exists TypeError. split; reflexivity.
    + pose proof (same_results_inv n path) as Hn.
      destruct (g n path) as [p| |e0]; destruct (g' n path) as [p'| |e0'];
        try tauto.
      * unfold bind.
        destruct (IH (log ++ [(n, path)]))
          as [log1 [[ps [ps' [-> [-> Hps]]]]|[e [-> ->]]]]; exists log1.
        -- left. exists (p :: ps), (p' :: ps'). repeat split.
           now constructor.
        -- right. exists e. split; reflexivity.
      * exists log. right. exists TypeError. split; reflexivity.
      * subst e0'. exists log. right. exists e0. split; reflexivity.
Qed.

Lemma await_all_same (ps ps' : list promise) :
  Forall2 (fun p p' => result p = result p') ps ps' ->
  fulfilled_values ps = fulfilled_values ps' /\
  (first_rejected ps = None <-> first_rejected ps' = None).
Proof.
  induction 1 as [|p p' ps ps' Hp _ [IHv IHr]]; simpl; [tauto|].
  rewrite <- Hp. destruct (result p) as [v|e].
  - rewrite IHv. tauto.
  - split; [assumption|].
    destruct (first_rejected ps) as [[t e1]|];
      destruct (first_rejected ps') as [[t' e1']|];
      repeat match goal with
             | |- context [if ?b then _ else _] => destruct b
             end; split; discriminate.
Qed.

Lemma step_same (current : value) (path : hop) (log : list call) :
  same_outcome (step g current path log) (step g' current path log).
Proof.
  unfold same_outcome. destruct current as [c|l]; cbn [step]; unfold bind.
  - destruct c as [|n]; simpl; [auto|].
    pose proof (same_results_inv n path) as Hn.
    destruct (g n path) as [p| |e0]; destruct (g' n path) as [p'| |e0'];
      try tauto; try (simpl; now auto).
    unfold await. rewrite <- Hn. destruct (result p); simpl; auto.
  - destruct (map_load_same path l log)
      as [log1 [[ps [ps' [-> [-> Hps]]]]|[e [-> ->]]]].
    + apply await_all_same in Hps.
      destruct Hps as [Hv Hr]. unfold await_all. rewrite <- Hv.
      destruct (first_rejected ps) as [[t e1]|];
        destruct (first_rejected ps') as [[t' e1']|]; simpl; auto.
      * exfalso. assert (H : Some (t, e1) = None) by now apply Hr.
        discriminate H.
      * exfalso. assert (H : Some (t', e1') = None) by now apply Hr.
        discriminate H.
    + simpl. auto.
Qed.

Lemma walk_same (paths : list hop) :
  forall (current : value) (log : list call),
    same_outcome (walk g current paths log) (walk g' current paths log).
Proof.
  induction paths as [|h paths IH]; intros current log; cbn [walk].
  - unfold same_outcome. simpl. auto.
  - unfold bind. pose proof (step_same current h log) as Hs.
    unfold same_outcome in Hs.
    destruct (step g current h log) as [log1 [v|e]];
      destruct (step g' current h log) as [log2 [v'|e']];
      simpl in Hs; destruct Hs as [-> Hs]; try tauto.
    + subst v'. apply IH.
    + unfold same_outcome. simpl. auto.
Qed.

End TimingFacts.

(** X17. The order in which the loads settle changes neither the loads
    issued nor a result: over two graphs that differ only in when their
    promises settle, a walk issues the same loads, and either returns the
    same value in both (elements in the same order) or fails in both. *)
Theorem settling_order_is_irrelevant :
  forall (g g' : Walker.graph) (current : value) (paths : list Walker.hop)
         (log : list Walker.call),
    Walker.same_results g g' ->
    Walker.same_outcome (Walker.walk g current paths log)
                        (Walker.walk g' current paths log).
Proof.
  intros g g' current paths log H. now apply walk_same.
Qed.

(** X17 at the two rejected image loads, settling in either order: the
    same three loads, a failure both times. *)
Lemma settling_order_is_irrelevant_witness :
  Walker.same_outcome
    (Walker.walk Fixtures.g_two_rejections (Single (Entity 0))
                 ["authors"; "image"] [])
    (Walker.walk Fixtures.g_two_rejections_swapped (Single (Entity 0))
                 ["authors"; "image"] []).
Proof.
  apply (@settling_order_is_irrelevant Fixtures.g_two_rejections
           Fixtures.g_two_rejections_swapped).
  intros n h.
  unfold Fixtures.g_two_rejections, Fixtures.g_two_rejections_swapped,
    Fixtures.graph_of.
  simpl.
  repeat match goal with
         | |- context [if ?b then _ else _] => destruct b
         end; reflexivity.
Defined.
